(** * AirspaceConverter: the conversion engine of [src/AirspaceConverter.cpp]

    A shallow embedding of the type resolver, the altitude parser, the
    load / convert / unload state machine, the geographic filter and the
    openAIP directory pipeline, followed by the properties proved about them.

    Conventions:
    - a [std::string] is a [list ascii] ([str]); string literals are
      coerced from [string];
    - the member variables of the C++ object are the fields of the record
      [AirspaceConverter]; every member function is a state transformer;
    - a failed [assert] aborts the program: stateful functions return
      [option], and [None] is the abort;
    - readers, writers, the logging sinks, the file system and the geometry
      classes live in other translation units; they are the fields of the
      class [Collaborators]. *)

From Stdlib Require Import List String Ascii ZArith Bool Lia Arith.
From Stdlib Require Import DecimalString Floats.
Import ListNotations.

Open Scope string_scope.
Open Scope nat_scope.
Open Scope bool_scope.
Open Scope list_scope.

(** ** Strings *)

Definition str := list ascii.

Abbreviation length := Datatypes.length.

Coercion list_ascii_of_string : string >-> list.

(** [std::string::at] ; every call of the engine is in range. *)
Definition at_ (s : str) (i : nat) : ascii := nth i s Ascii.zero.

(** [std::string::substr(pos, n)] and [substr(pos)]. *)
Definition substr (s : str) (pos n : nat) : str := firstn n (skipn pos s).
Definition substr_from (s : str) (pos : nat) : str := skipn pos s.

Fixpoint str_eqb (a b : str) : bool :=
  match a, b with
  | [], [] => true
  | x :: a', y :: b' => Ascii.eqb x y && str_eqb a' b'
  | _, _ => false
  end.

(** [std::toupper] in the "C" locale. *)
Definition to_upper (c : ascii) : ascii :=
  if (Ascii.leb "a" c && Ascii.leb c "z")%bool
  then ascii_of_nat (nat_of_ascii c - 32) else c.

(** [boost::iequals]: same length, equal character by character once both
    are upper-cased. *)
Fixpoint iequals (a b : str) : bool :=
  match a, b with
  | [], [] => true
  | x :: a', y :: b' => Ascii.eqb (to_upper x) (to_upper y) && iequals a' b'
  | _, _ => false
  end.

(** [boost::ends_with]. *)
Definition ends_with (s suffix : str) : bool :=
  str_eqb (skipn (length s - length suffix) s) suffix
  && (length suffix <=? length s).

(** [operator<] of [std::string]: lexicographic on unsigned characters. *)
Fixpoint str_ltb (a b : str) : bool :=
  match a, b with
  | _, [] => false
  | [], _ :: _ => true
  | x :: a', y :: b' =>
      if Ascii.ltb x y then true
      else if Ascii.eqb x y then str_ltb a' b' else false
  end.

(** Position of the last character satisfying [p]
    ([std::string::rfind] of a character, [find_last_of] of a set). *)
Fixpoint rfind (p : ascii -> bool) (s : str) : option nat :=
  match s with
  | [] => None
  | c :: t =>
      match rfind p t with
      | Some k => Some (S k)
      | None => if p c then Some 0 else None
      end
  end.

(** Position of the first character at or after [from] satisfying [p]
    ([find_first_of]). *)
Fixpoint find_first (p : ascii -> bool) (s : str) (from : nat) : option nat :=
  match s with
  | [] => None
  | c :: t =>
      match from with
      | 0 => if p c then Some 0 else option_map S (find_first p t 0)
      | S f => option_map S (find_first p t f)
      end
  end.

(** ** Boost.Filesystem paths (version 3, POSIX separators)

    The decomposition functions of [boost::filesystem::path] that the engine
    calls, written after the library's [path.cpp]. *)
Module path.

Definition dot : ascii := ".".
Definition is_separator (c : ascii) : bool := Ascii.eqb c "/".
Definition is_dot (c : ascii) : bool := Ascii.eqb c dot.

(** [while (pos > 0 && is_separator(str[pos-1])) --pos;] *)
Fixpoint leftmost_separator (s : str) (pos : nat) : nat :=
  match pos with
  | 0 => 0
  | S p => if is_separator (at_ s p) then leftmost_separator s p else S p
  end.

Definition is_root_separator (s : str) (pos : nat) : bool :=
  let pos := leftmost_separator s pos in
  if pos =? 0 then true
  else if (pos <? 3) || negb (is_separator (at_ s 0))
          || negb (is_separator (at_ s 1)) then false
  else match find_first is_separator s 2 with
       | Some k => k =? pos
       | None => false
       end.

(** [filename_pos(str, str.size())]: 0 when the whole string is the
    filename. *)
Definition filename_pos (s : str) : nat :=
  let end_pos := length s in
  if (end_pos =? 2) && is_separator (at_ s 0) && is_separator (at_ s 1)
  then 0
  else if (0 <? end_pos) && is_separator (at_ s (end_pos - 1))
  then end_pos - 1
  else match rfind is_separator s with
       | None => 0
       | Some pos =>
           if (pos =? 1) && is_separator (at_ s 0) then 0 else pos + 1
       end.

Definition filename (p : str) : str :=
  let pos := filename_pos p in
  if (0 <? length p) && (0 <? pos) && is_separator (at_ p pos)
     && negb (is_root_separator p pos)
  then "."
  else substr_from p pos.

Definition extension (p : str) : str :=
  let name := filename p in
  if str_eqb name "." || str_eqb name ".." then []
  else match rfind is_dot name with
       | None => []
       | Some pos => substr_from name pos
       end.

Definition stem (p : str) : str :=
  let name := filename p in
  if str_eqb name "." || str_eqb name ".." then name
  else match rfind is_dot name with
       | None => name
       | Some pos => firstn pos name
       end.

(** [replace_extension]: erase the extension, then append the new one,
    adding the dot when the new extension lacks it. *)
Definition replace_extension (p new_extension : str) : str :=
  let erased := firstn (length p - length (extension p)) p in
  match new_extension with
  | [] => erased
  | c :: _ =>
      if is_dot c then erased ++ new_extension
      else erased ++ dot :: new_extension
  end.

(** [operator/]: append with a separator unless one is already there. *)
Definition append (p q : str) : str :=
  match q with
  | [] => p
  | c :: _ =>
      if is_separator c then p ++ q
      else match p with
           | [] => q
           | _ :: _ =>
               if is_separator (last p Ascii.zero) then p ++ q
               else p ++ "/" ++ q
           end
  end.

End path.

(** ** Type resolver *)

Inductive OutputType : Type :=
| KMZ_Format
| OpenAir_Format
| SeeYou_Format
| Polish_Format
| Garmin_Format
| Unknown_Format.

Definition OutputType_eqb (a b : OutputType) : bool :=
  match a, b with
  | KMZ_Format, KMZ_Format | OpenAir_Format, OpenAir_Format
  | SeeYou_Format, SeeYou_Format | Polish_Format, Polish_Format
  | Garmin_Format, Garmin_Format | Unknown_Format, Unknown_Format => true
  | _, _ => false
  end.

Definition DetermineType (filename : str) : OutputType :=
  match filename with
  | [] => KMZ_Format
  | _ :: _ =>
      let outputExt := path.extension filename in
      if negb (iequals outputExt ".kmz") then
        if iequals outputExt ".txt" then OpenAir_Format
        else if iequals outputExt ".cup" then SeeYou_Format
        else if iequals outputExt ".mp" then Polish_Format
        else if iequals outputExt ".img" then Garmin_Format
        else Unknown_Format
      else KMZ_Format
  end.

(** [PutTypeExtension] takes the file name by reference: the result is the
    returned flag and the file name afterwards. *)
Definition PutTypeExtension (type : OutputType) (filename : str) : bool * str :=
  match filename with
  | [] => (false, filename)
  | _ :: _ =>
      match type with
      | KMZ_Format => (true, path.replace_extension filename ".kmz")
      | OpenAir_Format => (true, path.replace_extension filename ".txt")
      | SeeYou_Format => (true, path.replace_extension filename ".cup")
      | Polish_Format => (true, path.replace_extension filename ".mp")
      | Garmin_Format => (true, path.replace_extension filename ".img")
      | Unknown_Format => (false, filename)
      end
  end.

(** The recognised extension of each named format. *)
Definition type_extension (type : OutputType) : str :=
  match type with
  | KMZ_Format => ".kmz"
  | OpenAir_Format => ".txt"
  | SeeYou_Format => ".cup"
  | Polish_Format => ".mp"
  | Garmin_Format => ".img"
  | Unknown_Format => []
  end.


(** The decision [DetermineType] takes once the extension is known. *)
Definition type_of_extension (outputExt : str) : OutputType :=
  if negb (iequals outputExt ".kmz") then
    if iequals outputExt ".txt" then OpenAir_Format
    else if iequals outputExt ".cup" then SeeYou_Format
    else if iequals outputExt ".mp" then Polish_Format
    else if iequals outputExt ".img" then Garmin_Format
    else Unknown_Format
  else KMZ_Format.

(** No character of [s] satisfies [p]. *)
Definition free (p : ascii -> bool) (s : str) : Prop :=
  Forall (fun c => p c = false) s.

(** ** Altitude parser *)

(** Modelled from the spec: [Altitude] is declared in Airspace.h, which is
    not among the sources.  The spec gives it four exclusive modes (feet,
    metres, flight level, unlimited) and a reference flag; a value records
    which setter the parser called ([SetUnlimited], [SetFlightLevel],
    [SetAltFt], [SetAltMt]) and with which arguments. *)
Inductive Altitude : Type :=
| Unlimited
| FlightLevel (FL : Z)
| AltFt (ft : Z) (isAMSL : bool)
| AltMt (mt : Z) (isAMSL : bool).

(** Modelled from the spec: [isDigit] is declared in AirspaceConverter.h,
    which is not among the sources; the spec scans "runs of digit and
    non-digit characters". *)
Definition isDigit (c : ascii) : bool := Ascii.leb "0" c && Ascii.leb c "9".

Fixpoint leading_digits (s : str) : str :=
  match s with
  | [] => []
  | c :: t => if isDigit c then c :: leading_digits t else []
  end.

Definition decimal_value (digits : str) : Z :=
  fold_left (fun acc c => 10 * acc + (Z.of_nat (nat_of_ascii c) - 48))%Z
            digits 0%Z.

(** The least decimal value that [std::stod] rejects with
    [std::out_of_range]: it would round to infinity. *)
Definition stod_out_of_range : Z := (2 ^ 1024 - 2 ^ 970)%Z.

(** [std::stod] on the strings the parser passes to it: a run of digits,
    followed by at most one more character when the run ends the text.
    The conversion stops at the first character that is not a digit; it
    throws when there is no digit at all or when the value is out of the
    range of a double.  The value is kept exactly: it is the double itself
    up to 2^53, beyond that the C++ value is the nearest double. *)
Definition stod (s : str) : option Z :=
  match leading_digits s with
  | [] => None
  | digits =>
      let value := decimal_value digits in
      if (value <? stod_out_of_range)%Z then Some value else None
  end.

(** The local variables of [ParseAltitude] that describe the altitude. *)
Record alt_vars : Type := {
  value : Z;
  isFL : bool;
  isAMSL : bool;
  valueFound : bool;
  typeFound : bool;
  isInFeet : bool;
  unitFound : bool;
  isUnlimited : bool
}.

Definition alt_vars_init : alt_vars :=
  {| value := 0; isFL := false; isAMSL := true; valueFound := false;
     typeFound := false; isInFeet := true; unitFound := false;
     isUnlimited := false |}.

Definition set_value (v : Z) (a : alt_vars) : alt_vars :=
  {| value := v; isFL := isFL a; isAMSL := isAMSL a; valueFound := true;
     typeFound := typeFound a; isInFeet := isInFeet a;
     unitFound := unitFound a; isUnlimited := isUnlimited a |}.

Definition set_type (amsl : bool) (a : alt_vars) : alt_vars :=
  {| value := value a; isFL := isFL a; isAMSL := amsl;
     valueFound := valueFound a; typeFound := true; isInFeet := isInFeet a;
     unitFound := unitFound a; isUnlimited := isUnlimited a |}.

Definition set_unit (feet : bool) (a : alt_vars) : alt_vars :=
  {| value := value a; isFL := isFL a; isAMSL := isAMSL a;
     valueFound := valueFound a; typeFound := typeFound a; isInFeet := feet;
     unitFound := true; isUnlimited := isUnlimited a |}.

Definition set_FL (a : alt_vars) : alt_vars :=
  {| value := value a; isFL := true; isAMSL := isAMSL a;
     valueFound := valueFound a; typeFound := true; isInFeet := isInFeet a;
     unitFound := unitFound a; isUnlimited := isUnlimited a |}.

(** A keyword that stands for a complete altitude: type, value and unit are
    all set at once. *)
Definition set_complete (amsl unlimited : bool) (a : alt_vars) : alt_vars :=
  {| value := value a; isFL := isFL a; isAMSL := amsl; valueFound := true;
     typeFound := true; isInFeet := isInFeet a; unitFound := true;
     isUnlimited := unlimited |}.

(** The branch [if (isNumber)] of the loop body; [None] is [return false]. *)
Definition number_token (token : str) (a : alt_vars) : option alt_vars :=
  if negb (valueFound a) then
    match stod token with
    | Some v => Some (set_value v a)
    | None => None
    end
  else None.

(** The [else] branch: a run of non-digit characters. *)
Definition word_token (token : str) (a : alt_vars) : option alt_vars :=
  if negb (typeFound a) then
    if valueFound a then
      if iequals token "AGL" || iequals token "AGND" || iequals token "ASFC"
         || iequals token "GND" || iequals token "SFC"
      then Some (set_type false a)
      else if iequals token "MSL" || iequals token "AMSL"
              || iequals token "ALT"
      then Some (set_type (isAMSL a) a)
      else if negb (unitFound a) then
        if iequals token "FT" || iequals token "F"
        then Some (set_unit (isInFeet a) a)
        else if iequals token "M" || iequals token "MT"
        then Some (set_unit false a)
        else Some a
      else Some a
    else
      if iequals token "FL" then Some (set_FL a)
      else if iequals token "GND" || iequals token "SFC"
      then Some (set_complete false (isUnlimited a) a)
      else if iequals token "MSL" || iequals token "AMSL"
      then Some (set_complete (isAMSL a) (isUnlimited a) a)
      else if iequals token "UNLIM" || iequals token "UNLIMITED"
              || iequals token "UNL"
      then Some (set_complete (isAMSL a) true a)
      else Some a
  else if negb (unitFound a) && negb (typeFound a) then None
  else Some a.

(** What one turn of the [for] loop does, before the [i++] of the loop
    header: [return false], [break], or go on with the loop variables
    [i], [s], [isNumber] and the altitude variables. *)
Inductive body_result : Type :=
| ReturnFalse
| Break (a : alt_vars)
| Next (i s : nat) (isNumber : bool) (a : alt_vars).

Definition ParseAltitude_body (text : str) (i s : nat) (isNumber : bool)
    (a : alt_vars) : body_result :=
  let l := length text in
  let c := at_ text i in
  let isLast := i =? l - 1 in
  let isSep := Ascii.eqb c " " || Ascii.eqb c "=" in
  if negb (Bool.eqb (isDigit c) isNumber) || isSep || isLast then
    let token := if isLast then substr_from text s
                 else substr text s (i - s) in
    match (if isNumber then number_token token a else word_token token a) with
    | None => ReturnFalse
    | Some a =>
        if valueFound a && typeFound a && unitFound a then Break a
        else if Ascii.eqb (at_ text i) " " || Ascii.eqb (at_ text i) "="
        then
          let i := i + 1 in
          Next i i (if i <? l then isDigit (at_ text i) else isNumber) a
        else Next i i (negb isNumber) a
    end
  else Next i s isNumber a.

Inductive scan_result : Type :=
| ScanFalse
| ScanEnd (a : alt_vars)
| ScanOutOfFuel.

(** The [for] loop from index [i] on.  [fuel] bounds the number of turns;
    [ParseAltitude_scan_terminates] shows that the length of the text is
    enough. *)
Fixpoint ParseAltitude_loop (fuel : nat) (text : str) (i s : nat)
    (isNumber : bool) (a : alt_vars) : scan_result :=
  if length text <=? i then ScanEnd a
  else
    match fuel with
    | 0 => ScanOutOfFuel
    | S fuel =>
        match ParseAltitude_body text i s isNumber a with
        | ReturnFalse => ScanFalse
        | Break a => ScanEnd a
        | Next i s isNumber a => ParseAltitude_loop fuel text (S i) s isNumber a
        end
    end.

Definition ParseAltitude_scan (text : str) : scan_result :=
  ParseAltitude_loop (length text) text 1 0 (isDigit (at_ text 0))
                     alt_vars_init.

(** The altitude built after the loop; [(int)value] keeps the value. *)
Definition build_altitude (a : alt_vars) : Altitude :=
  if isUnlimited a then Unlimited
  else if isFL a then FlightLevel (value a)
  else if isInFeet a then AltFt (value a) (isAMSL a)
  else AltMt (value a) (isAMSL a).

(** [ParseAltitude] up to the assignment to the airspace: the altitude it
    is about to assign, or [None] where it returns false. *)
Definition ParseAltitude_text (text : str) : option Altitude :=
  match text with
  | [] => None
  | _ :: _ =>
      match ParseAltitude_scan text with
      | ScanEnd a => if valueFound a then Some (build_altitude a) else None
      | ScanFalse | ScanOutOfFuel => None
      end
  end.


(** The text in upper case. *)
Definition upper (text : str) : str := map to_upper text.

(** ** Reading lines *)

(** A [std::istream] as [SafeGetline] sees it: the characters its stream
    buffer still holds and the three state bits. *)
Record istream : Type := {
  rdbuf : str;
  eofbit : bool;
  failbit : bool;
  badbit : bool
}.

Definition good (input : istream) : bool :=
  negb (eofbit input) && negb (failbit input) && negb (badbit input).

(** [std::istream::sentry se(is, true)]: no white space is skipped; a
    stream that is not good gets its failbit set.  [SafeGetline] does not
    look at the sentry afterwards. *)
Definition sentry (input : istream) : istream :=
  if good input then input
  else {| rdbuf := rdbuf input; eofbit := eofbit input; failbit := true;
          badbit := badbit input |}.

Definition LF : ascii := "010".
Definition CR : ascii := "013".

(** The [do ... while (proceed)] loop on the stream buffer [sb]: the
    result is what is left in the buffer, the line, [isCRLF], and whether
    [is.setstate(std::ios::eofbit)] was called. *)
Fixpoint SafeGetline_loop (sb line : str) : str * str * bool * bool :=
  match sb with
  | [] => ([], line, true, match line with [] => true | _ :: _ => false end)
  | c :: sb' =>
      if Ascii.eqb c LF then (sb', line, false, false)
      else if Ascii.eqb c CR then
        match sb' with
        | c' :: sb'' =>
            if Ascii.eqb c' LF then (sb'', line, true, false)
            else (sb', line, false, false)
        | [] => (sb', line, false, false)
        end
      else SafeGetline_loop sb' (line ++ [c])
  end.

(** [SafeGetline(is, line, isCRLF)]: the line, [isCRLF] and the stream
    afterwards. *)
Definition SafeGetline (input : istream) : str * bool * istream :=
  let is1 := sentry input in
  let '(sb, line, isCRLF, eof) := SafeGetline_loop (rdbuf is1) [] in
  (line, isCRLF,
   {| rdbuf := sb; eofbit := eofbit is1 || eof; failbit := failbit is1;
      badbit := badbit is1 |}).

(** How a line ended. *)
Inductive line_end : Type := EndLF | EndCR | EndCRLF | EndEOF.

Definition terminator (e : line_end) : str :=
  match e with
  | EndLF => [LF]
  | EndCR => [CR]
  | EndCRLF => [CR; LF]
  | EndEOF => []
  end.

Definition is_line_break (c : ascii) : bool :=
  Ascii.eqb c LF || Ascii.eqb c CR.

(** The value [SafeGetline] leaves in [isCRLF] for each line end. *)
Definition isCRLF_of (e : line_end) : bool :=
  match e with
  | EndCRLF | EndEOF => true
  | EndLF | EndCR => false
  end.

(** What must follow a line end in the buffer for [SafeGetline] to read
    it as such: nothing after the end of file, no line feed after a lone
    carriage return. *)
Definition may_follow (e : line_end) (rest : str) : Prop :=
  match e with
  | EndEOF => rest = []
  | EndCR => forall rest', rest <> LF :: rest'
  | EndLF | EndCRLF => True
  end.

(** ** Collaborators *)

(** [std::multimap<int, T>]: the entries in iteration order. *)
Definition multimap (T : Type) : Type := list (Z * T).

(** What a [directory_iterator] yields for one entry. *)
Record DirEntry : Type := {
  entry_path : str;
  entry_is_regular_file : bool;
  entry_file_size : N
}.

(** The classes and hooks the engine calls and that live outside
    AirspaceConverter.cpp.  [World] is everything outside the object: the
    file system, the output streams, the static terrain maps of [KML].
    A reader is given the collections its C++ object holds references to
    and returns them as it leaves them; a writer only reads them. *)
Class Collaborators : Type := {
  Airspace : Type;
  Waypoint : Type;
  Position : Type;
  Limits : Type;
  World : Type;
  (* Airspace.h, Waypoint.h, Geometry.h *)
  SetTopAltitude : Altitude -> Airspace -> Airspace;
  SetBaseAltitude : Altitude -> Airspace -> Airspace;
  IsWithinLimits : Airspace -> Limits -> bool;
  GetPosition : Waypoint -> Position;
  Limits_new : float -> float -> float -> float -> Limits;
  IsValid : Limits -> bool;
  IsPositionWithinLimits : Limits -> Position -> bool;
  (* readers *)
  OpenAir_Read :
    str -> World -> multimap Airspace -> bool * World * multimap Airspace;
  OpenAIP_ReadAirspaces :
    str -> World -> multimap Airspace -> multimap Waypoint ->
    bool * World * multimap Airspace * multimap Waypoint;
  OpenAIP_ReadWaypoints :
    str -> World -> multimap Airspace -> multimap Waypoint ->
    bool * World * multimap Airspace * multimap Waypoint;
  KML_ReadKMZ :
    bool -> str -> World -> multimap Airspace -> multimap Waypoint ->
    bool * World * multimap Airspace * multimap Waypoint;
  KML_ReadKML :
    bool -> str -> World -> multimap Airspace -> multimap Waypoint ->
    bool * World * multimap Airspace * multimap Waypoint;
  SeeYou_Read :
    str -> World -> multimap Waypoint -> bool * World * multimap Waypoint;
  (* writers; [KML_Write] also answers [WereAllAGLaltitudesCovered] *)
  KML_Write :
    str -> World -> multimap Airspace -> multimap Waypoint ->
    bool * bool * World;
  OpenAir_Write :
    bool -> bool -> str -> World -> multimap Airspace -> bool * World;
  SeeYou_Write : str -> World -> multimap Waypoint -> bool * World;
  Polish_Write : str -> World -> multimap Airspace -> bool * World;
  cGPSmapper : str -> str -> World -> bool * World;
  (* terrain maps of KML *)
  KML_GetNumOfRasterMaps : World -> nat;
  KML_AddTerrainMap : str -> World -> bool * World;
  KML_ClearTerrainMaps : World -> World;
  (* logging sinks *)
  LogMessage : str -> World -> World;
  LogWarning : str -> World -> World;
  LogError : str -> World -> World;
  (* boost::filesystem queries *)
  is_directory : World -> str -> bool;
  directory_entries : World -> str -> list DirEntry
}.

(** ** State and abort monad *)

Definition M (S A : Type) : Type := S -> option (A * S).

Definition ret {S A : Type} (a : A) : M S A := fun st => Some (a, st).

Definition bind {S A B : Type} (m : M S A) (k : A -> M S B) : M S B :=
  fun st =>
    match m st with
    | Some (a, st') => k a st'
    | None => None
    end.

Notation "x <- m ;; k" := (bind m (fun x => k))
  (at level 61, m at next level, right associativity).
Notation "m ;; k" := (bind m (fun _ => k))
  (at level 61, right associativity).

Definition get {S : Type} : M S S := fun st => Some (st, st).
Definition modify {S : Type} (f : S -> S) : M S unit :=
  fun st => Some (tt, f st).

(** [assert(b)]: the program aborts when [b] is false. *)
Definition assert {S : Type} (b : bool) : M S unit :=
  fun st => if b then Some (tt, st) else None.

(** A range-based [for] over a snapshot of the container. *)
Fixpoint for_each {S A : Type} (l : list A) (body : A -> M S unit)
    : M S unit :=
  match l with
  | [] => ret tt
  | x :: l' => body x ;; for_each l' body
  end.

Definition is_empty {A : Type} (l : list A) : bool :=
  match l with [] => true | _ :: _ => false end.

(** Decimal output of an unsigned number in a field of the given width, as
    the printf-style directives [%1d] and [%2d] of [boost::format] print
    it. *)
Definition fmt (width : nat) (n : N) : str :=
  let digits : str := NilZero.string_of_uint (N.to_uint n) in
  repeat " "%char (width - length digits) ++ digits.

(** Difference of two [size_t] values. *)
Definition size_sub (a b : nat) : N :=
  Z.to_N ((Z.of_nat a - Z.of_nat b) mod 2 ^ 64).

(** ** The converter object *)

Section Engine.

Context {collaborators : Collaborators}.

(** The member variables of [AirspaceConverter], and the world around
    the object. *)
Record State : Type := {
  airspaces : multimap Airspace;
  waypoints : multimap Waypoint;
  airspaceFiles : list str;
  terrainRasterMapFiles : list str;
  waypointFiles : list str;
  outputFile : str;
  conversionDone : bool;
  doNotCalculateArcs : bool;
  writeCoordinatesAsDDMMSS : bool;
  processLineStrings : bool;
  world : World
}.

Definition set_airspaces (v : multimap Airspace) (st : State) : State :=
  {| airspaces := v; waypoints := waypoints st;
     airspaceFiles := airspaceFiles st;
     terrainRasterMapFiles := terrainRasterMapFiles st;
     waypointFiles := waypointFiles st; outputFile := outputFile st;
     conversionDone := conversionDone st;
     doNotCalculateArcs := doNotCalculateArcs st;
     writeCoordinatesAsDDMMSS := writeCoordinatesAsDDMMSS st;
     processLineStrings := processLineStrings st; world := world st |}.

Definition set_waypoints (v : multimap Waypoint) (st : State) : State :=
  {| airspaces := airspaces st; waypoints := v;
     airspaceFiles := airspaceFiles st;
     terrainRasterMapFiles := terrainRasterMapFiles st;
     waypointFiles := waypointFiles st; outputFile := outputFile st;
     conversionDone := conversionDone st;
     doNotCalculateArcs := doNotCalculateArcs st;
     writeCoordinatesAsDDMMSS := writeCoordinatesAsDDMMSS st;
     processLineStrings := processLineStrings st; world := world st |}.

Definition set_airspaceFiles (v : list str) (st : State) : State :=
  {| airspaces := airspaces st; waypoints := waypoints st;
     airspaceFiles := v;
     terrainRasterMapFiles := terrainRasterMapFiles st;
     waypointFiles := waypointFiles st; outputFile := outputFile st;
     conversionDone := conversionDone st;
     doNotCalculateArcs := doNotCalculateArcs st;
     writeCoordinatesAsDDMMSS := writeCoordinatesAsDDMMSS st;
     processLineStrings := processLineStrings st; world := world st |}.

Definition set_terrainRasterMapFiles (v : list str) (st : State) : State :=
  {| airspaces := airspaces st; waypoints := waypoints st;
     airspaceFiles := airspaceFiles st;
     terrainRasterMapFiles := v;
     waypointFiles := waypointFiles st; outputFile := outputFile st;
     conversionDone := conversionDone st;
     doNotCalculateArcs := doNotCalculateArcs st;
     writeCoordinatesAsDDMMSS := writeCoordinatesAsDDMMSS st;
     processLineStrings := processLineStrings st; world := world st |}.

Definition set_waypointFiles (v : list str) (st : State) : State :=
  {| airspaces := airspaces st; waypoints := waypoints st;
     airspaceFiles := airspaceFiles st;
     terrainRasterMapFiles := terrainRasterMapFiles st;
     waypointFiles := v; outputFile := outputFile st;
     conversionDone := conversionDone st;
     doNotCalculateArcs := doNotCalculateArcs st;
     writeCoordinatesAsDDMMSS := writeCoordinatesAsDDMMSS st;
     processLineStrings := processLineStrings st; world := world st |}.

Definition set_outputFile (v : str) (st : State) : State :=
  {| airspaces := airspaces st; waypoints := waypoints st;
     airspaceFiles := airspaceFiles st;
     terrainRasterMapFiles := terrainRasterMapFiles st;
     waypointFiles := waypointFiles st; outputFile := v;
     conversionDone := conversionDone st;
     doNotCalculateArcs := doNotCalculateArcs st;
     writeCoordinatesAsDDMMSS := writeCoordinatesAsDDMMSS st;
     processLineStrings := processLineStrings st; world := world st |}.

Definition set_conversionDone (v : bool) (st : State) : State :=
  {| airspaces := airspaces st; waypoints := waypoints st;
     airspaceFiles := airspaceFiles st;
     terrainRasterMapFiles := terrainRasterMapFiles st;
     waypointFiles := waypointFiles st; outputFile := outputFile st;
     conversionDone := v;
     doNotCalculateArcs := doNotCalculateArcs st;
     writeCoordinatesAsDDMMSS := writeCoordinatesAsDDMMSS st;
     processLineStrings := processLineStrings st; world := world st |}.

Definition set_world (v : World) (st : State) : State :=
  {| airspaces := airspaces st; waypoints := waypoints st;
     airspaceFiles := airspaceFiles st;
     terrainRasterMapFiles := terrainRasterMapFiles st;
     waypointFiles := waypointFiles st; outputFile := outputFile st;
     conversionDone := conversionDone st;
     doNotCalculateArcs := doNotCalculateArcs st;
     writeCoordinatesAsDDMMSS := writeCoordinatesAsDDMMSS st;
     processLineStrings := processLineStrings st; world := v |}.

(** The constructor. *)
Definition AirspaceConverter_new (w : World) : State :=
  {| airspaces := []; waypoints := []; airspaceFiles := [];
     terrainRasterMapFiles := []; waypointFiles := []; outputFile := [];
     conversionDone := false; doNotCalculateArcs := false;
     writeCoordinatesAsDDMMSS := false; processLineStrings := false;
     world := w |}.

Definition log_message (text : str) : M State unit :=
  modify (fun st => set_world (LogMessage text (world st)) st).
Definition log_warning (text : str) : M State unit :=
  modify (fun st => set_world (LogWarning text (world st)) st).
Definition log_error (text : str) : M State unit :=
  modify (fun st => set_world (LogError text (world st)) st).

(** *** Altitude parser, with the assignment to the airspace *)

(** [isTop ? airspace.SetTopAltitude(alt) : airspace.SetBaseAltitude(alt)] *)
Definition assign_altitude (alt : Altitude) (isTop : bool)
    (airspace : Airspace) : Airspace :=
  if isTop then SetTopAltitude alt airspace else SetBaseAltitude alt airspace.

(** The airspace is passed by reference: the result is the returned flag
    and the airspace afterwards. *)
Definition ParseAltitude (text : str) (isTop : bool) (airspace : Airspace)
    : bool * Airspace :=
  match ParseAltitude_text text with
  | None => (false, airspace)
  | Some alt => (true, assign_altitude alt isTop airspace)
  end.

(** *** Calls of the readers and writers on the object's collections *)

Definition openAir_Read (inputFile : str) : M State bool :=
  fun st =>
    let '(ok, w, a) := OpenAir_Read inputFile (world st) (airspaces st) in
    Some (ok, set_world w (set_airspaces a st)).

Definition both_collections
    (reader : World -> multimap Airspace -> multimap Waypoint ->
              bool * World * multimap Airspace * multimap Waypoint)
    : M State bool :=
  fun st =>
    let '(ok, w, a, p) := reader (world st) (airspaces st) (waypoints st) in
    Some (ok, set_world w (set_waypoints p (set_airspaces a st))).

Definition seeYou_Read (inputFile : str) : M State bool :=
  fun st =>
    let '(ok, w, p) := SeeYou_Read inputFile (world st) (waypoints st) in
    Some (ok, set_world w (set_waypoints p st)).

Definition call_writer (writer : State -> bool * World) : M State bool :=
  fun st => let '(ok, w) := writer st in Some (ok, set_world w st).

(** Modelled from the spec: [AddAirspaceFile], [AddWaypointFile] and
    [GetOutputType] are defined in AirspaceConverter.h, which is not among
    the sources.  The spec keeps "pending input file lists" that the Load
    operations consume, and has Convert resolve "the output format from the
    output path's extension". *)
Definition AddAirspaceFile (inputFile : str) : M State unit :=
  modify (fun st => set_airspaceFiles (airspaceFiles st ++ [inputFile]) st).

Definition AddWaypointFile (waypointsFile : str) : M State unit :=
  modify (fun st => set_waypointFiles (waypointFiles st ++ [waypointsFile]) st).

Definition GetOutputType (st : State) : OutputType :=
  DetermineType (outputFile st).

(** *** Load and unload *)

(** One turn of the loop of [LoadAirspaces] over the pending files. *)
Definition LoadAirspaces_file (suggestedTypeForOutputFilename : OutputType)
    (initialAirspacesNumber : nat) (inputFile : str) : M State unit :=
  let ext := path.extension inputFile in
  known <-
    (if iequals ext ".txt" then openAir_Read inputFile ;; ret true
     else if iequals ext ".aip"
     then both_collections (OpenAIP_ReadAirspaces inputFile) ;; ret true
     else if iequals ext ".kmz"
     then (st <- get ;;
           both_collections (KML_ReadKMZ (processLineStrings st) inputFile)) ;;
          ret true
     else if iequals ext ".kml"
     then (st <- get ;;
           both_collections (KML_ReadKML (processLineStrings st) inputFile)) ;;
          ret true
     else log_warning ("Unknown extension for airspace file: " ++ inputFile) ;;
          ret false) ;;
  if known : bool then
    st <- get ;;
    if (initialAirspacesNumber <? length (airspaces st))
       && is_empty (outputFile st)
    then
      match suggestedTypeForOutputFilename with
      | KMZ_Format =>
          modify (set_outputFile (path.replace_extension inputFile ".kmz"))
      | OpenAir_Format =>
          modify (set_outputFile (path.replace_extension inputFile ".txt"))
      | Polish_Format =>
          modify (set_outputFile (path.replace_extension inputFile ".mp"))
      | Garmin_Format =>
          modify (set_outputFile (path.replace_extension inputFile ".img"))
      | SeeYou_Format | Unknown_Format => assert false
      end
    else ret tt
  else ret tt.

Definition LoadAirspaces (suggestedTypeForOutputFilename : OutputType)
    : M State unit :=
  st <- get ;;
  if is_empty (airspaceFiles st) then ret tt
  else
    modify (set_conversionDone false) ;;
    let initialAirspacesNumber := length (airspaces st) in
    for_each (airspaceFiles st)
      (LoadAirspaces_file suggestedTypeForOutputFilename
                          initialAirspacesNumber) ;;
    st' <- get ;;
    log_message ("Read "
                 ++ fmt 1 (size_sub (length (airspaces st'))
                                    initialAirspacesNumber)
                 ++ " airspace definition(s) from "
                 ++ fmt 2 (N.of_nat (length (airspaceFiles st')))
                 ++ " file(s).") ;;
    modify (set_airspaceFiles []).

Definition UnloadAirspaces : M State unit :=
  modify (set_conversionDone false) ;;
  modify (set_airspaces []) ;;
  modify (set_outputFile []).

(** One turn of the counting loop of [LoadTerrainRasterMaps]. *)
Definition AddTerrainMap_count (counter : nat) (demFile : str)
    : M State nat :=
  fun st =>
    let '(ok, w) := KML_AddTerrainMap demFile (world st) in
    Some (if ok then S counter else counter, set_world w st).

Fixpoint AddTerrainMaps (files : list str) (counter : nat) : M State nat :=
  match files with
  | [] => ret counter
  | demFile :: files' =>
      counter' <- AddTerrainMap_count counter demFile ;;
      AddTerrainMaps files' counter'
  end.

Definition LoadTerrainRasterMaps : M State unit :=
  st <- get ;;
  if is_empty (terrainRasterMapFiles st) then ret tt
  else
    modify (set_conversionDone false) ;;
    counter <- AddTerrainMaps (terrainRasterMapFiles st) 0 ;;
    modify (set_terrainRasterMapFiles []) ;;
    if 0 <? counter
    then log_message ("Read successfully " ++ fmt 1 (N.of_nat counter)
                      ++ " terrain raster map file(s).")
    else ret tt.

Definition UnloadRasterMaps : M State unit :=
  modify (set_conversionDone false) ;;
  modify (fun st => set_world (KML_ClearTerrainMaps (world st)) st).

(** One turn of the loop of [LoadWaypoints]; the result is the counter of
    the files read. *)
Definition LoadWaypoints_file (counter : nat) (inputFile : str)
    : M State nat :=
  let ext := path.extension inputFile in
  read <-
    (if iequals ext ".cup"
     then readOk <- seeYou_Read inputFile ;; ret (Some readOk)
     else if iequals ext ".aip"
     then readOk <- both_collections (OpenAIP_ReadWaypoints inputFile) ;;
          ret (Some readOk)
     else log_warning ("Unknown extension for waypoint file: " ++ inputFile) ;;
          ret None) ;;
  match read with
  | None => ret counter
  | Some readOk =>
      st <- get ;;
      (if (readOk : bool) && is_empty (outputFile st)
       then modify (set_outputFile (path.replace_extension inputFile ".kmz"))
       else ret tt) ;;
      ret (if readOk then S counter else counter)
  end.

Fixpoint LoadWaypoints_files (files : list str) (counter : nat)
    : M State nat :=
  match files with
  | [] => ret counter
  | inputFile :: files' =>
      counter' <- LoadWaypoints_file counter inputFile ;;
      LoadWaypoints_files files' counter'
  end.

Definition LoadWaypoints : M State unit :=
  st <- get ;;
  if is_empty (waypointFiles st) then ret tt
  else
    modify (set_conversionDone false) ;;
    let wptCounter := length (waypoints st) in
    counter <- LoadWaypoints_files (waypointFiles st) 0 ;;
    modify (set_waypointFiles []) ;;
    st' <- get ;;
    if 0 <? counter
    then log_message ("Read successfully "
                      ++ fmt 1 (size_sub (length (waypoints st')) wptCounter)
                      ++ " waypoint(s) from " ++ fmt 2 (N.of_nat counter)
                      ++ " file(s).")
    else ret tt.

(** Every stored waypoint is deleted, then the container is cleared. *)
Definition UnloadWaypoints : M State unit :=
  modify (set_conversionDone false) ;;
  modify (set_waypoints []) ;;
  st <- get ;;
  if is_empty (airspaces st) then modify (set_outputFile []) else ret tt.

(** *** Convert *)

Definition Convert_KMZ : M State unit :=
  st <- get ;;
  let '(ok, allCovered, w) :=
    KML_Write (outputFile st) (world st) (airspaces st) (waypoints st) in
  modify (set_world w) ;;
  if ok then
    modify (set_conversionDone true) ;;
    st' <- get ;;
    if KML_GetNumOfRasterMaps (world st') =? 0
    then log_warning
           "no raster terrain map loaded, used default terrain height for all applicable AGL points."
    else if negb allCovered
    then log_warning
           "not all AGL altitudes were under coverage of the loaded terrain map(s)."
    else ret tt
  else ret tt.

Definition Convert_Garmin : M State unit :=
  st <- get ;;
  let polishFile := path.replace_extension (outputFile st) ".mp" in
  log_message ("Building Polish file: " ++ polishFile) ;;
  written <- call_writer
               (fun st => Polish_Write polishFile (world st) (airspaces st)) ;;
  if negb written then ret tt
  else
    done <- call_writer
              (fun st => cGPSmapper polishFile (outputFile st) (world st)) ;;
    modify (set_conversionDone done).

Definition Convert : M State bool :=
  st <- get ;;
  assert (negb (is_empty (outputFile st))) ;;
  modify (set_conversionDone false) ;;
  match GetOutputType st with
  | KMZ_Format => Convert_KMZ
  | OpenAir_Format =>
      done <- call_writer
                (fun st => OpenAir_Write (doNotCalculateArcs st)
                             (writeCoordinatesAsDDMMSS st) (outputFile st)
                             (world st) (airspaces st)) ;;
      modify (set_conversionDone done)
  | SeeYou_Format =>
      done <- call_writer
                (fun st => SeeYou_Write (outputFile st) (world st)
                                        (waypoints st)) ;;
      modify (set_conversionDone done)
  | Polish_Format =>
      done <- call_writer
                (fun st => Polish_Write (outputFile st) (world st)
                                        (airspaces st)) ;;
      modify (set_conversionDone done)
  | Garmin_Format => Convert_Garmin
  | Unknown_Format =>
      log_error "Output file extension/type unknown." ;; assert false
  end ;;
  st' <- get ;;
  ret (conversionDone st').

(** *** Directory of openAIP files *)

(** 0: asp (airspace), 1: hot (hotspots), 2: nav (navaids),
    3: wpt (airports). *)
Definition Contents : Type := bool * bool * bool * bool.

(** [std::map<std::string, Contents>]: the records in key order. *)
Definition FilesIndex : Type := list (str * Contents).

Fixpoint index_find (countryCode : str) (index : FilesIndex)
    : option Contents :=
  match index with
  | [] => None
  | (k, v) :: index' =>
      if str_eqb k countryCode then Some v else index_find countryCode index'
  end.

(** [aipFilesIndex[countryCode] = newContent] for a key that is not there. *)
Fixpoint index_insert (countryCode : str) (newContent : Contents)
    (index : FilesIndex) : FilesIndex :=
  match index with
  | [] => [(countryCode, newContent)]
  | (k, v) :: index' =>
      if str_ltb countryCode k then (countryCode, newContent) :: index
      else (k, v) :: index_insert countryCode newContent index'
  end.

Definition merge_contents (contents newContent : Contents) : Contents :=
  let '(a0, a1, a2, a3) := contents in
  let '(b0, b1, b2, b3) := newContent in
  (a0 || b0, a1 || b1, a2 || b2, a3 || b3).

Fixpoint index_merge (countryCode : str) (newContent : Contents)
    (index : FilesIndex) : FilesIndex :=
  match index with
  | [] => []
  | (k, v) :: index' =>
      if str_eqb k countryCode
      then (k, merge_contents v newContent) :: index'
      else (k, v) :: index_merge countryCode newContent index'
  end.

Definition index_add (countryCode : str) (newContent : Contents)
    (index : FilesIndex) : FilesIndex :=
  match index_find countryCode index with
  | None => index_insert countryCode newContent index
  | Some _ => index_merge countryCode newContent index
  end.

Definition content_of_name (filename : str) : option Contents :=
  if ends_with filename "asp" then Some (true, false, false, false)
  else if ends_with filename "wpt" then Some (false, false, false, true)
  else if ends_with filename "nav" then Some (false, false, true, false)
  else if ends_with filename "hot" then Some (false, true, false, false)
  else None.

(** The record a directory entry contributes to the index, if any: a
    non-empty regular file with the extension [.aip] whose stem is a
    two-letter country code, an underscore and a known content code. *)
Definition entry_record (entry : DirEntry) : option (str * Contents) :=
  if entry_is_regular_file entry
     && negb (N.eqb (entry_file_size entry) 0)
     && iequals (path.extension (entry_path entry)) ".aip"
  then
    let filename := path.stem (entry_path entry) in
    if (length filename =? 6) && Ascii.eqb (at_ filename 2) "_" then
      match content_of_name filename with
      | Some newContent => Some (substr filename 0 2, newContent)
      | None => None
      end
    else None
  else None.

(** The index of a directory listing, without the warnings. *)
Definition add_entry (index : FilesIndex) (entry : DirEntry) : FilesIndex :=
  match entry_record entry with
  | Some (countryCode, newContent) => index_add countryCode newContent index
  | None => index
  end.

Definition files_index (entries : list DirEntry) : FilesIndex :=
  fold_left add_entry entries [].

(** One turn of the loop over the directory entries. *)
Definition index_entry (index : FilesIndex) (entry : DirEntry)
    : M State FilesIndex :=
  if entry_is_regular_file entry
     && negb (N.eqb (entry_file_size entry) 0)
     && iequals (path.extension (entry_path entry)) ".aip"
  then
    let filename := path.stem (entry_path entry) in
    if (length filename =? 6) && Ascii.eqb (at_ filename 2) "_" then
      let countryCode := substr filename 0 2 in
      match content_of_name filename with
      | Some newContent => ret (index_add countryCode newContent index)
      | None =>
          log_warning
            ("not able to understand the content type from the name of openAIP file: "
             ++ filename) ;;
          ret index
      end
    else
      log_warning
        ("openAIP filename expected as <country code>_<content code> but found: "
         ++ filename) ;;
      ret index
  else ret index.

Fixpoint build_index (entries : list DirEntry) (index : FilesIndex)
    : M State FilesIndex :=
  match entries with
  | [] => ret index
  | entry :: entries' =>
      index' <- index_entry index entry ;;
      build_index entries' index'
  end.

(** The body of the loop over the index: the conversions of one country. *)
Definition convert_country (openAIPpath : str) (record : str * Contents)
    : M State unit :=
  let countryCode := fst record in
  let '(asp, _, nav, wpt) := snd record in
  (if asp : bool then
     let aspPath := path.append openAIPpath (countryCode ++ "_asp.aip") in
     AddAirspaceFile aspPath ;;
     LoadAirspaces KMZ_Format ;;
     modify (set_outputFile (path.replace_extension aspPath ".txt")) ;;
     Convert ;; ret tt
   else ret tt) ;;
  airfieldsFile <-
    (if wpt : bool then
       let wptPath := path.append openAIPpath (countryCode ++ "_wpt.aip") in
       AddWaypointFile wptPath ;;
       LoadWaypoints ;;
       modify (set_outputFile (path.replace_extension wptPath ".cup")) ;;
       Convert ;; ret wptPath
     else ret []) ;;
  (if nav : bool then
     (if wpt : bool then UnloadWaypoints else ret tt) ;;
     let navPath := path.append openAIPpath (countryCode ++ "_nav.aip") in
     AddWaypointFile navPath ;;
     LoadWaypoints ;;
     modify (set_outputFile (path.replace_extension navPath ".cup")) ;;
     Convert ;; ret tt
   else ret tt) ;;
  (if negb (is_empty airfieldsFile) then
     AddWaypointFile airfieldsFile ;;
     LoadWaypoints
   else ret tt) ;;
  modify (set_outputFile (path.append openAIPpath (countryCode ++ ".kmz"))) ;;
  Convert ;;
  UnloadAirspaces ;;
  UnloadWaypoints.

Definition ConvertOpenAIPdir (openAIPdir : str) : M State bool :=
  if is_empty openAIPdir then ret false
  else
    st <- get ;;
    if negb (is_directory (world st) openAIPdir) then
      log_error ("input openAIP airspace directory is not a valid directory: "
                 ++ openAIPdir) ;;
      ret false
    else
      UnloadAirspaces ;;
      UnloadWaypoints ;;
      st <- get ;;
      aipFilesIndex <- build_index (directory_entries (world st) openAIPdir) [] ;;
      if is_empty aipFilesIndex then
        log_error ("no .aip files found in directory: " ++ openAIPdir) ;;
        ret false
      else
        for_each aipFilesIndex (convert_country openAIPdir) ;;
        ret true.

(** *** Geographic filter *)

Definition is_whole_globe (topLat bottomLat leftLon rightLon : float) : bool :=
  PrimFloat.eqb topLat 90 && PrimFloat.eqb bottomLat (-90)
  && PrimFloat.eqb leftLon (-180) && PrimFloat.eqb rightLon 180.

Definition FilterOnLatLonLimits (topLat bottomLat leftLon rightLon : float)
    : M State bool :=
  if is_whole_globe topLat bottomLat leftLon rightLon then ret true
  else
    let limits := Limits_new topLat bottomLat leftLon rightLon in
    if negb (IsValid limits) then ret false
    else
      st <- get ;;
      (if negb (is_empty (airspaces st)) then
         let origAirspaces := length (airspaces st) in
         modify (set_airspaces
                   (filter (fun it => IsWithinLimits (snd it) limits)
                           (airspaces st))) ;;
         st' <- get ;;
         log_message ("Filtering airspaces... excluded: "
                      ++ fmt 1 (size_sub origAirspaces (length (airspaces st')))
                      ++ ", remaining: "
                      ++ fmt 2 (N.of_nat (length (airspaces st'))))
       else ret tt) ;;
      st <- get ;;
      (if negb (is_empty (waypoints st)) then
         let origWaypoints := length (waypoints st) in
         modify (set_waypoints
                   (filter (fun it => IsPositionWithinLimits limits
                                        (GetPosition (snd it)))
                           (waypoints st))) ;;
         st' <- get ;;
         log_message ("Filtering waypoints... excluded: "
                      ++ fmt 1 (size_sub origWaypoints (length (waypoints st')))
                      ++ ", remaining: "
                      ++ fmt 2 (N.of_nat (length (waypoints st'))) ++ " ")
       else ret tt) ;;
      ret true.

(** *** Sequences of calls on one object *)

Inductive Op : Type :=
| OpAddAirspaceFile (inputFile : str)
| OpAddWaypointFile (waypointsFile : str)
| OpLoadAirspaces (suggestedTypeForOutputFilename : OutputType)
| OpLoadWaypoints
| OpLoadTerrainRasterMaps
| OpUnloadAirspaces
| OpUnloadWaypoints
| OpUnloadRasterMaps
| OpConvert
| OpConvertOpenAIPdir (openAIPdir : str)
| OpFilterOnLatLonLimits (topLat bottomLat leftLon rightLon : float).

(** The call, with the boolean it returns ([true] for a [void] function). *)
Definition run_op (op : Op) : M State bool :=
  match op with
  | OpAddAirspaceFile f => AddAirspaceFile f ;; ret true
  | OpAddWaypointFile f => AddWaypointFile f ;; ret true
  | OpLoadAirspaces t => LoadAirspaces t ;; ret true
  | OpLoadWaypoints => LoadWaypoints ;; ret true
  | OpLoadTerrainRasterMaps => LoadTerrainRasterMaps ;; ret true
  | OpUnloadAirspaces => UnloadAirspaces ;; ret true
  | OpUnloadWaypoints => UnloadWaypoints ;; ret true
  | OpUnloadRasterMaps => UnloadRasterMaps ;; ret true
  | OpConvert => Convert
  | OpConvertOpenAIPdir d => ConvertOpenAIPdir d
  | OpFilterOnLatLonLimits t b l r => FilterOnLatLonLimits t b l r
  end.

(** The calls of a sequence, one after the other. *)
Fixpoint run_ops (ops : list Op) : M State unit :=
  match ops with
  | [] => ret tt
  | op :: ops' => run_op op ;; run_ops ops'
  end.

(** *** Vocabulary of the proofs *)

(** [m] never aborts. *)
Definition total {A : Type} (m : M State A) : Prop :=
  forall st, exists a st', m st = Some (a, st').

(** [m] leaves the component [f] of the state as it finds it. *)
Definition preserves {A B : Type} (f : State -> B) (m : M State A) : Prop :=
  forall st a st', m st = Some (a, st') -> f st' = f st.

(** [m], when it does not abort, ends in a state where [Q] holds. *)
Definition ensures {A : Type} (m : M State A) (Q : State -> Prop) : Prop :=
  forall st a st', m st = Some (a, st') -> Q st'.

(** [m] never sets the completion flag: if the flag is set afterwards, it
    was set before. *)
Definition never_completes {A : Type} (m : M State A) : Prop :=
  forall st a st',
    m st = Some (a, st') -> conversionDone st' = true ->
    conversionDone st = true.

(** What the writer of the output type, or the external tool after it,
    answers when [Convert] is called in state [st]. *)
Definition writer_reports (st : State) : bool :=
  match GetOutputType st with
  | KMZ_Format =>
      fst (fst (KML_Write (outputFile st) (world st) (airspaces st)
                          (waypoints st)))
  | OpenAir_Format =>
      fst (OpenAir_Write (doNotCalculateArcs st) (writeCoordinatesAsDDMMSS st)
                         (outputFile st) (world st) (airspaces st))
  | SeeYou_Format => fst (SeeYou_Write (outputFile st) (world st) (waypoints st))
  | Polish_Format => fst (Polish_Write (outputFile st) (world st) (airspaces st))
  | Garmin_Format =>
      let polishFile := path.replace_extension (outputFile st) ".mp" in
      let w := LogMessage ("Building Polish file: " ++ polishFile) (world st) in
      let '(written, w') := Polish_Write polishFile w (airspaces st) in
      written && fst (cGPSmapper polishFile (outputFile st) w')
  | Unknown_Format => false
  end.

(** *** More vocabulary *)

(** A component of the state that no reader, writer or logging sink can
    reach: it does not depend on the collections and on the world. *)
Definition out_of_reach {B : Type} (f : State -> B) : Prop :=
  (forall w st, f (set_world w st) = f st) /\
  (forall a st, f (set_airspaces a st) = f st) /\
  (forall p st, f (set_waypoints p st) = f st).

(** The extensions [LoadAirspaces] and [LoadWaypoints] have a reader for. *)
Definition airspace_reader_for (inputFile : str) : bool :=
  let ext := path.extension inputFile in
  iequals ext ".txt" || iequals ext ".aip" || iequals ext ".kmz"
  || iequals ext ".kml".

Definition waypoint_reader_for (inputFile : str) : bool :=
  let ext := path.extension inputFile in
  iequals ext ".cup" || iequals ext ".aip".

(** Nothing is loaded and no output is pending. *)
Definition unloaded (st : State) : Prop :=
  airspaces st = [] /\ waypoints st = [] /\ outputFile st = []
  /\ conversionDone st = false.

(** Two states that differ at most in the world around the object. *)
Definition same_object (st st' : State) : Prop :=
  st' = set_world (world st') st.

(** The contents the listing records for a country, entry by entry. *)
Definition no_contents : Contents := (false, false, false, false).

Definition entry_contents (countryCode : str) (entry : DirEntry) : Contents :=
  match entry_record entry with
  | Some (cc, newContent) =>
      if str_eqb cc countryCode then newContent else no_contents
  | None => no_contents
  end.

Definition has_asp (c : Contents) : bool := let '(x, _, _, _) := c in x.
Definition has_hot (c : Contents) : bool := let '(_, x, _, _) := c in x.
Definition has_nav (c : Contents) : bool := let '(_, _, x, _) := c in x.
Definition has_wpt (c : Contents) : bool := let '(_, _, _, x) := c in x.

(** A country has a kind of content when some entry of the listing
    records it for that country. *)
Definition country_contents (entries : list DirEntry) (countryCode : str)
    : Contents :=
  let some sel :=
    existsb (fun entry => sel (entry_contents countryCode entry)) entries in
  (some has_asp, some has_hot, some has_nav, some has_wpt).

Definition country_listed (entries : list DirEntry) (countryCode : str)
    : bool :=
  existsb (fun entry =>
             match entry_record entry with
             | Some (cc, _) => str_eqb cc countryCode
             | None => false
             end) entries.

(** The keys go up strictly from one to the next. *)
Fixpoint keys_ascending (keys : list str) : bool :=
  match keys with
  | [] => true
  | k :: keys' =>
      match keys' with
      | [] => true
      | k' :: _ => str_ltb k k' && keys_ascending keys'
      end
  end.

End Engine.

(** ** A small world to run the engine in

    Concrete collaborators for the examples: files are tables of what a
    reader finds in them, a writer records the collections it is given
    unless the path is marked unwritable, the logging sinks keep the
    messages. *)
Module Demo.

Record airspace : Type := {
  asp_name : str;
  asp_lat : float;
  asp_lon : float;
  asp_base : option Altitude;
  asp_top : option Altitude
}.

Record waypoint : Type := {
  wpt_name : str;
  wpt_lat : float;
  wpt_lon : float
}.

Record limits : Type := {
  topLimit : float;
  bottomLimit : float;
  leftLimit : float;
  rightLimit : float
}.

Record world : Type := {
  directories : list (str * list DirEntry);
  airspaceData : list (str * list (Z * airspace));
  waypointData : list (str * list (Z * waypoint));
  unwritable : list str;
  written : list (str * (multimap airspace * multimap waypoint));
  messages : list str;
  rasterMaps : nat
}.

Fixpoint lookup {A : Type} (key : str) (table : list (str * A)) : option A :=
  match table with
  | [] => None
  | (k, v) :: table' => if str_eqb k key then Some v else lookup key table'
  end.

(** [std::multimap::insert]: after the entries whose key is not greater. *)
Fixpoint multimap_insert {T : Type} (entry : Z * T) (m : multimap T)
    : multimap T :=
  match m with
  | [] => [entry]
  | e :: m' =>
      if (fst entry <? fst e)%Z then entry :: m
      else e :: multimap_insert entry m'
  end.

Definition multimap_insert_all {T : Type} (entries : list (Z * T))
    (m : multimap T) : multimap T :=
  fold_left (fun acc entry => multimap_insert entry acc) entries m.

Definition set_written (v : list (str * (multimap airspace * multimap waypoint)))
    (w : world) : world :=
  {| directories := directories w; airspaceData := airspaceData w;
     waypointData := waypointData w; unwritable := unwritable w;
     written := v; messages := messages w; rasterMaps := rasterMaps w |}.

Definition set_messages (v : list str) (w : world) : world :=
  {| directories := directories w; airspaceData := airspaceData w;
     waypointData := waypointData w; unwritable := unwritable w;
     written := written w; messages := v; rasterMaps := rasterMaps w |}.

Definition set_rasterMaps (v : nat) (w : world) : world :=
  {| directories := directories w; airspaceData := airspaceData w;
     waypointData := waypointData w; unwritable := unwritable w;
     written := written w; messages := messages w; rasterMaps := v |}.

Definition read_airspaces (file : str) (w : world) (a : multimap airspace)
    : bool * world * multimap airspace :=
  match lookup file (airspaceData w) with
  | Some found => (true, w, multimap_insert_all found a)
  | None => (false, w, a)
  end.

Definition read_waypoints (file : str) (w : world) (p : multimap waypoint)
    : bool * world * multimap waypoint :=
  match lookup file (waypointData w) with
  | Some found => (true, w, multimap_insert_all found p)
  | None => (false, w, p)
  end.

Definition write (file : str) (w : world) (a : multimap airspace)
    (p : multimap waypoint) : bool * world :=
  if existsb (str_eqb file) (unwritable w) then (false, w)
  else (true, set_written ((file, (a, p)) :: written w) w).

Definition log (prefix text : str) (w : world) : world :=
  set_messages (messages w ++ [prefix ++ text]) w.

Definition within (l : limits) (lat lon : float) : bool :=
  PrimFloat.leb (bottomLimit l) lat && PrimFloat.leb lat (topLimit l)
  && PrimFloat.leb (leftLimit l) lon && PrimFloat.leb lon (rightLimit l).

(** Modelled from the spec: [Geometry::Limits] is declared in Geometry.h,
    which is not among the sources.  The spec calls a box invalid when it
    "fails internal range/ordering validation": latitudes within -90..90
    with the bottom below the top, longitudes within -180..180 with the
    left before the right. *)
Definition valid (l : limits) : bool :=
  PrimFloat.leb (-90) (bottomLimit l)
  && PrimFloat.ltb (bottomLimit l) (topLimit l)
  && PrimFloat.leb (topLimit l) 90
  && PrimFloat.leb (-180) (leftLimit l)
  && PrimFloat.ltb (leftLimit l) (rightLimit l)
  && PrimFloat.leb (rightLimit l) 180.

Definition set_top (alt : Altitude) (a : airspace) : airspace :=
  {| asp_name := asp_name a; asp_lat := asp_lat a; asp_lon := asp_lon a;
     asp_base := asp_base a; asp_top := Some alt |}.

Definition set_base (alt : Altitude) (a : airspace) : airspace :=
  {| asp_name := asp_name a; asp_lat := asp_lat a; asp_lon := asp_lon a;
     asp_base := Some alt; asp_top := asp_top a |}.

Definition collaborators : Collaborators :=
  {| Airspace := airspace;
     Waypoint := waypoint;
     Position := float * float;
     Limits := limits;
     World := world;
     SetTopAltitude := set_top;
     SetBaseAltitude := set_base;
     IsWithinLimits := fun a l => within l (asp_lat a) (asp_lon a);
     GetPosition := fun p => (wpt_lat p, wpt_lon p);
     Limits_new := fun t b l r =>
       {| topLimit := t; bottomLimit := b; leftLimit := l; rightLimit := r |};
     IsValid := valid;
     IsPositionWithinLimits := fun l pos => within l (fst pos) (snd pos);
     OpenAir_Read := read_airspaces;
     OpenAIP_ReadAirspaces := fun file w a p =>
       let '(ok, w', a') := read_airspaces file w a in (ok, w', a', p);
     OpenAIP_ReadWaypoints := fun file w a p =>
       let '(ok, w', p') := read_waypoints file w p in (ok, w', a, p');
     KML_ReadKMZ := fun _ file w a p =>
       let '(ok, w', a') := read_airspaces file w a in (ok, w', a', p);
     KML_ReadKML := fun _ file w a p =>
       let '(ok, w', a') := read_airspaces file w a in (ok, w', a', p);
     SeeYou_Read := read_waypoints;
     KML_Write := fun file w a p =>
       let '(ok, w') := write file w a p in (ok, true, w');
     OpenAir_Write := fun _ _ file w a => write file w a [];
     SeeYou_Write := fun file w p => write file w [] p;
     Polish_Write := fun file w a => write file w a [];
     cGPSmapper := fun _ outputFile w => write outputFile w [] [];
     KML_GetNumOfRasterMaps := rasterMaps;
     KML_AddTerrainMap := fun _ w => (true, set_rasterMaps (S (rasterMaps w)) w);
     KML_ClearTerrainMaps := set_rasterMaps 0;
     LogMessage := log "";
     LogWarning := log "Warning: ";
     LogError := log "ERROR: ";
     is_directory := fun w dir =>
       match lookup dir (directories w) with Some _ => true | None => false end;
     directory_entries := fun w dir =>
       match lookup dir (directories w) with Some l => l | None => [] end |}.

Definition empty_world : world :=
  {| directories := []; airspaceData := []; waypointData := [];
     unwritable := []; written := []; messages := []; rasterMaps := 0 |}.

(** A fresh converter object in the given world. *)
Definition start (w : world) : @State collaborators :=
  @AirspaceConverter_new collaborators w.

Definition LIML : waypoint :=
  {| wpt_name := "Milano Linate"; wpt_lat := 45.5; wpt_lon := 9.25 |}.

Definition SRN : waypoint :=
  {| wpt_name := "Saronno VOR"; wpt_lat := 45.75; wpt_lon := 9.0 |}.

Definition CTR : airspace :=
  {| asp_name := "CTR Linate"; asp_lat := 45.5; asp_lon := 9.25;
     asp_base := None; asp_top := None |}.

Definition file_entry (name : str) : DirEntry :=
  {| entry_path := name; entry_is_regular_file := true;
     entry_file_size := 1024 |}.

(** A directory holding the airfields of one country and nothing else. *)
Definition airfields_only : world :=
  {| directories := [("openaip" : str, [file_entry "openaip/it_wpt.aip"])];
     airspaceData := [];
     waypointData := [("openaip/it_wpt.aip" : str, [(5%Z, LIML)])];
     unwritable := []; written := []; messages := []; rasterMaps := 0 |}.

(** A directory with airspaces, airfields and navaids of one country, a
    hotspot file of another, and a file with a misspelt name; the tabular
    file of the first country cannot be written. *)
Definition two_countries : world :=
  {| directories :=
       [("openaip" : str,
         [file_entry "openaip/it_nav.aip"; file_entry "openaip/it_asp.aip";
          file_entry "openaip/README.txt"; file_entry "openaip/it_wpt.aip";
          file_entry "openaip/italy.aip"; file_entry "openaip/ch_hot.aip"])];
     airspaceData := [("openaip/it_asp.aip" : str, [(3%Z, CTR)])];
     waypointData := [("openaip/it_wpt.aip" : str, [(5%Z, LIML)]);
                      ("openaip/it_nav.aip" : str, [(2%Z, SRN)])];
     unwritable := ["openaip/it_wpt.cup" : str];
     written := []; messages := []; rasterMaps := 0 |}.

(** A directory without any openAIP file. *)
Definition no_aip_files : world :=
  {| directories := [("empty" : str, [file_entry "empty/notes.txt"])];
     airspaceData := []; waypointData := []; unwritable := [];
     written := []; messages := []; rasterMaps := 0 |}.

(** A world where one OpenAir file can be read. *)
Definition one_openair_file : world :=
  {| directories := [];
     airspaceData := [("italy.txt" : str, [(3%Z, CTR)])];
     waypointData := []; unwritable := []; written := []; messages := [];
     rasterMaps := 0 |}.

End Demo.

(** States of the converter in the small world, for the examples. *)
Module Scenes.

(** One OpenAir file queued, nothing loaded yet. *)
Definition queued : @State Demo.collaborators :=
  @set_airspaceFiles Demo.collaborators ["italy.txt" : str]
    (Demo.start Demo.one_openair_file).

(** The same with an output path chosen by the user. *)
Definition queued_with_output : @State Demo.collaborators :=
  @set_outputFile Demo.collaborators "out/alps.mp" queued.

(** Files that no reader is registered for, queued in both lists. *)
Definition queued_unreadable : @State Demo.collaborators :=
  @set_waypointFiles Demo.collaborators ["notes.doc" : str; "readme" : str]
    (@set_airspaceFiles Demo.collaborators
       ["notes.doc" : str; "italy.cup" : str]
       (Demo.start Demo.one_openair_file)).

(** One airspace and two waypoints loaded, output path set. *)
Definition loaded : @State Demo.collaborators :=
  @set_outputFile Demo.collaborators "italy.kmz"
    (@set_waypoints Demo.collaborators [(2%Z, Demo.SRN); (5%Z, Demo.LIML)]
       (@set_airspaces Demo.collaborators [(3%Z, Demo.CTR)]
          (Demo.start Demo.empty_world))).

End Scenes.
(** * Properties *)

(** ** Strings and paths *)

Example path_examples :
  path.extension "dir/aa_asp.aip" = ".aip" /\
  path.stem "dir/aa_asp.aip" = "aa_asp" /\
  path.extension "dir.d/file" = [] /\
  path.extension "dir/" = [] /\
  path.extension ".." = [] /\
  path.filename "dir/" = "." /\
  path.filename "/" = "/" /\
  path.replace_extension "out/italy.TXT" ".kmz" = "out/italy.kmz" /\
  path.append "dir" "aa.kmz" = "dir/aa.kmz" /\
  path.append "dir/" "aa.kmz" = "dir/aa.kmz".
Proof. repeat split; reflexivity. Qed.

Lemma str_eqb_eq (a b : str) : str_eqb a b = true <-> a = b.
Proof.
  revert b; induction a as [|x a IH]; intros [|y b]; simpl;
    try (split; intros; congruence).
  rewrite andb_true_iff, Ascii.eqb_eq, IH.
  split; [intros [-> ->]; reflexivity | intros H; inversion H; auto].
Qed.

Lemma iequals_upper (a b : str) :
  iequals a b = true <-> map to_upper a = map to_upper b.
Proof.
  revert b; induction a as [|x a IH]; intros [|y b]; simpl;
    try (split; intros; congruence).
  rewrite andb_true_iff, Ascii.eqb_eq, IH.
  split; [intros [-> ->]; reflexivity | intros H; inversion H; auto].
Qed.

Section Rfind.
Variable p : ascii -> bool.

Lemma rfind_free (s : str) : free p s -> rfind p s = None.
Proof.
  induction 1 as [|c s Hc _ IH]; simpl; [reflexivity|].
  now rewrite IH, Hc.
Qed.

Lemma rfind_None_free (s : str) : rfind p s = None -> free p s.
Proof.
  induction s as [|c s IH]; simpl; intros H; [constructor|].
  destruct (rfind p s) eqn:E; [discriminate|].
  destruct (p c) eqn:Hc; [discriminate|].
  constructor; [exact Hc | now apply IH].
Qed.

Lemma rfind_app_free (s t : str) : free p t -> rfind p (s ++ t) = rfind p s.
Proof.
  intros Ht; induction s as [|c s IH]; simpl.
  - now apply rfind_free.
  - now rewrite IH.
Qed.

Lemma rfind_app_hit (s : str) (c : ascii) (t : str) :
  p c = true -> free p t -> rfind p (s ++ c :: t) = Some (length s).
Proof.
  intros Hc Ht; induction s as [|x s IH]; simpl.
  - now rewrite (rfind_free t Ht), Hc.
  - now rewrite IH.
Qed.

Lemma rfind_Some_split (s : str) (k : nat) :
  rfind p s = Some k ->
  k < length s /\ free p (skipn (S k) s).
Proof.
  revert k; induction s as [|c s IH]; simpl; intros k H; [discriminate|].
  destruct (rfind p s) as [j|] eqn:E.
  - injection H as <-. destruct (IH j eq_refl) as [Hlt Hfree].
    split; [lia | exact Hfree].
  - destruct (p c); [|discriminate]. injection H as <-.
    split; [lia|]. simpl. now apply rfind_None_free.
Qed.
End Rfind.

Lemma free_app (p : ascii -> bool) (s t : str) :
  free p s -> free p t -> free p (s ++ t).
Proof. intros; apply Forall_app; auto. Qed.

Lemma at_head_of_tail (s t : str) (k : nat) :
  k <= length s ->
  at_ (s ++ t) k = at_ (skipn k s ++ t) 0.
Proof.
  intros Hk. unfold at_.
  rewrite <- (firstn_skipn k s) at 1. rewrite <- app_assoc.
  rewrite app_nth2; rewrite length_firstn, Nat.min_l by lia; [|lia].
  now rewrite Nat.sub_diag.
Qed.

Lemma at_0_free (p : ascii -> bool) (s : str) :
  s <> [] -> free p s -> p (at_ s 0) = false.
Proof.
  destruct s as [|c s]; [congruence|]. intros _ H. now inversion H.
Qed.

Lemma at_last_free (p : ascii -> bool) (s t : str) :
  t <> [] -> free p t -> p (at_ (s ++ t) (length (s ++ t) - 1)) = false.
Proof.
  intros Hne Ht.
  destruct (exists_last Hne) as (t' & c & ->).
  apply Forall_app in Ht as [_ Hc]. inversion Hc; subst.
  rewrite app_assoc. unfold at_.
  rewrite app_nth2; rewrite length_app; simpl; [|lia].
  now replace (_ - _) with 0 by lia.
Qed.

(** A name made of anything followed by a dot and a non-empty run free of
    dots and separators: its file name ends with the same dotted run... *)
Lemma filename_dotted (base e : str) :
  e <> [] -> free path.is_separator e ->
  exists b, path.filename (base ++ path.dot :: e) = b ++ path.dot :: e.
Proof.
  intros Hne Hsep.
  assert (Hde : free path.is_separator (path.dot :: e)) by (constructor; auto).
  assert (Hlen : length (base ++ path.dot :: e) = length base + S (length e))
    by (rewrite length_app; reflexivity).
  assert (Hlast : path.is_separator
            (at_ (base ++ path.dot :: e) (length (base ++ path.dot :: e) - 1)) = false)
    by (apply at_last_free; [discriminate | exact Hde]).
  destruct e as [|e0 e']; [congruence|]. simpl in Hlen.
  unfold path.filename, path.filename_pos.
  destruct ((length (base ++ path.dot :: e0 :: e') =? 2)
            && path.is_separator (at_ (base ++ path.dot :: e0 :: e') 0)
            && path.is_separator (at_ (base ++ path.dot :: e0 :: e') 1)) eqn:E2.
  { apply andb_true_iff in E2 as [E2 _]. apply andb_true_iff in E2 as [E2 E0].
    apply Nat.eqb_eq in E2. destruct base as [|b0 base]; [|simpl in *; lia].
    discriminate E0. }
  rewrite Hlast, andb_false_r.
  rewrite rfind_app_free by exact Hde.
  destruct (rfind path.is_separator base) as [pos|] eqn:Er.
  - destruct ((pos =? 1) && path.is_separator (at_ (base ++ path.dot :: e0 :: e') 0)).
    + exists base. now rewrite andb_false_r.
    + apply rfind_Some_split in Er as [Hlt Hfree].
      replace (pos + 1) with (S pos) by lia.
      rewrite at_head_of_tail by lia.
      rewrite (at_0_free path.is_separator), andb_false_r.
      * exists (skipn (S pos) base). unfold substr_from.
        rewrite skipn_app. replace (S pos - length base) with 0 by lia.
        reflexivity.
      * destruct (skipn (S pos) base); discriminate.
      * apply free_app; assumption.
  - exists base. now rewrite andb_false_r.
Qed.

(** ... and so does its extension. *)
Lemma extension_dotted (base e : str) :
  e <> [] -> free path.is_separator e -> free path.is_dot e ->
  path.extension (base ++ path.dot :: e) = path.dot :: e.
Proof.
  intros Hne Hsep Hdot.
  destruct (filename_dotted base e Hne Hsep) as [b Hb].
  unfold path.extension. rewrite Hb.
  assert (H1 : str_eqb (b ++ path.dot :: e) "." = false).
  { apply not_true_is_false; intros H; apply str_eqb_eq in H.
    apply (f_equal (@length ascii)) in H. rewrite length_app in H.
    destruct e; [congruence|]. simpl in H. lia. }
  assert (H2 : str_eqb (b ++ path.dot :: e) ".." = false).
  { apply not_true_is_false; intros H; apply str_eqb_eq in H.
    destruct e as [|e0 e]; [congruence|].
    inversion Hdot as [|? ? He0 _]; subst.
    destruct b as [|b0 b]; simpl in H.
    - injection H as H. subst e0. discriminate He0.
    - apply (f_equal (@length ascii)) in H. simpl in H.
      rewrite length_app in H. simpl in H. lia. }
  rewrite H1, H2. simpl.
  rewrite rfind_app_hit by (auto; reflexivity).
  unfold substr_from. rewrite skipn_app, skipn_all, Nat.sub_diag. reflexivity.
Qed.

(** A path without any dot has no extension. *)
Lemma extension_dotless (p : str) :
  free path.is_dot p -> path.extension p = [].
Proof.
  intros Hp. unfold path.extension, path.filename.
  destruct (_ && _ && _ && _); [reflexivity|].
  destruct (_ || _); [reflexivity|].
  rewrite rfind_free; [reflexivity|].
  unfold substr_from. rewrite <- (firstn_skipn (path.filename_pos p) p) in Hp.
  now apply Forall_app in Hp as [_ Hp].
Qed.

(** ** Type resolver *)

Lemma iequals_literal (e lit LIT : str) :
  map to_upper lit = LIT ->
  (iequals e lit = true <-> map to_upper e = LIT).
Proof. intros <-. apply iequals_upper. Qed.

Lemma iequals_literal_false (e lit LIT : str) :
  map to_upper lit = LIT ->
  (iequals e lit = false <-> map to_upper e <> LIT).
Proof.
  intros H. rewrite <- (iequals_literal e lit LIT H).
  now destruct (iequals e lit).
Qed.

(** C3 refuted as stated: a non-empty path with no extension at all is not
    given the KMZ default, it is classified as unknown. *)
Lemma DetermineType_no_extension_counterexample :
  path.extension "output" = [] /\
  DetermineType "output" = Unknown_Format /\
  DetermineType "output" <> KMZ_Format.
Proof. split; [reflexivity | split; [reflexivity | discriminate]]. Qed.

(** C3 (amended): the extension is matched case-insensitively.  For a
    non-empty path the upper-cased extension decides the type: [.KMZ],
    [.TXT], [.CUP], [.MP], [.IMG] give KMZ, OpenAir, SeeYou (tabular),
    Polish (vendor source), Garmin (vendor compiled); any other extension
    gives Unknown, and so does a non-empty path without an extension.  Only
    the empty path and the [.kmz] extension give KMZ. *)
Theorem DetermineType_by_extension (filename : str) :
  (filename = [] -> DetermineType filename = KMZ_Format) /\
  (filename <> [] ->
   let EXT := map to_upper (path.extension filename) in
   (DetermineType filename = KMZ_Format <-> EXT = ".KMZ") /\
   (DetermineType filename = OpenAir_Format <-> EXT = ".TXT") /\
   (DetermineType filename = SeeYou_Format <-> EXT = ".CUP") /\
   (DetermineType filename = Polish_Format <-> EXT = ".MP") /\
   (DetermineType filename = Garmin_Format <-> EXT = ".IMG") /\
   (DetermineType filename = Unknown_Format <->
      EXT <> ".KMZ" /\ EXT <> ".TXT" /\ EXT <> ".CUP" /\ EXT <> ".MP"
      /\ EXT <> ".IMG") /\
   (path.extension filename = [] -> DetermineType filename = Unknown_Format)).
Proof.
  split; [intros ->; reflexivity|].
  intros Hne EXT. destruct filename as [|c0 rest]; [congruence|].
  unfold DetermineType.
  assert (Hempty : path.extension (c0 :: rest) = [] -> EXT = []).
  { intros H. unfold EXT. now rewrite H. }
  destruct (iequals (path.extension (c0 :: rest)) ".kmz") eqn:K;
    [apply (iequals_literal _ ".kmz" ".KMZ" eq_refl) in K
    |apply (iequals_literal_false _ ".kmz" ".KMZ" eq_refl) in K];
  (destruct (iequals (path.extension (c0 :: rest)) ".txt") eqn:T;
    [apply (iequals_literal _ ".txt" ".TXT" eq_refl) in T
    |apply (iequals_literal_false _ ".txt" ".TXT" eq_refl) in T]);
  (destruct (iequals (path.extension (c0 :: rest)) ".cup") eqn:C;
    [apply (iequals_literal _ ".cup" ".CUP" eq_refl) in C
    |apply (iequals_literal_false _ ".cup" ".CUP" eq_refl) in C]);
  (destruct (iequals (path.extension (c0 :: rest)) ".mp") eqn:M;
    [apply (iequals_literal _ ".mp" ".MP" eq_refl) in M
    |apply (iequals_literal_false _ ".mp" ".MP" eq_refl) in M]);
  (destruct (iequals (path.extension (c0 :: rest)) ".img") eqn:G;
    [apply (iequals_literal _ ".img" ".IMG" eq_refl) in G
    |apply (iequals_literal_false _ ".img" ".IMG" eq_refl) in G]);
  fold EXT in K, T, C, M, G; clearbody EXT; cbn [negb];
  cbv [list_ascii_of_string] in *;
  repeat split; intros; subst; try tauto; try congruence;
  try (exfalso; specialize (Hempty ltac:(assumption)); congruence).
Qed.

(** The table applied: upper and mixed case, a path with a dotted
    directory, the empty path. *)
Lemma DetermineType_by_extension_witness :
  ("dir.d/Italy.TxT" : str) <> [] /\
  DetermineType "dir.d/Italy.TxT" = OpenAir_Format.
Proof.
  assert (Hne : ("dir.d/Italy.TxT" : str) <> []) by discriminate.
  split; [exact Hne|].
  destruct (DetermineType_by_extension "dir.d/Italy.TxT") as [_ H].
  destruct (H Hne) as (_ & [_ Htxt] & _).
  apply Htxt. reflexivity.
Defined.

Lemma DetermineType_nonempty (filename : str) :
  filename <> [] ->
  DetermineType filename = type_of_extension (path.extension filename).
Proof. destruct filename; [congruence | reflexivity]. Qed.

Lemma DetermineType_dotted (base e : str) :
  e <> [] -> free path.is_separator e -> free path.is_dot e ->
  DetermineType (base ++ path.dot :: e) = type_of_extension (path.dot :: e).
Proof.
  intros Hne Hsep Hdot.
  rewrite DetermineType_nonempty by (destruct base; discriminate).
  now rewrite extension_dotted.
Qed.

Ltac free_literal :=
  repeat (apply Forall_cons; [reflexivity|]); apply Forall_nil.

(** Replacing the extension by the one of a named format gives a path that
    resolves to that format. *)
Lemma DetermineType_replace_extension (type : OutputType) (filename : str) :
  type <> Unknown_Format ->
  DetermineType (path.replace_extension filename (type_extension type)) = type.
Proof.
  intros Hty. unfold path.replace_extension.
  destruct type; try congruence; cbn [type_extension list_ascii_of_string];
    change (path.is_dot ".") with true; cbv iota;
    rewrite DetermineType_dotted; try reflexivity; try discriminate;
    free_literal.
Qed.

Lemma replace_extension_nonempty (filename ext : str) :
  ext <> [] -> path.replace_extension filename ext <> [].
Proof.
  unfold path.replace_extension. destruct ext as [|c ext]; [congruence|].
  intros _. destruct (path.is_dot c);
    destruct (firstn _ filename); discriminate.
Qed.

(** C4: for a non-empty path and each of the five named formats,
    [PutTypeExtension] succeeds and the rewritten path resolves back to the
    same format; for the unknown format or an empty path it reports
    failure and leaves the path as it was. *)
Theorem PutTypeExtension_roundtrip (type : OutputType) (filename : str) :
  (filename <> [] -> type <> Unknown_Format ->
   exists filename',
     PutTypeExtension type filename = (true, filename') /\
     filename' = path.replace_extension filename (type_extension type) /\
     DetermineType filename' = type) /\
  PutTypeExtension Unknown_Format filename = (false, filename) /\
  PutTypeExtension type [] = (false, []).
Proof.
  split; [|split].
  - intros Hne Hty.
    exists (path.replace_extension filename (type_extension type)).
    split; [|split; [reflexivity|now apply DetermineType_replace_extension]].
    destruct filename; [congruence|]. destruct type; try congruence; reflexivity.
  - destruct filename; reflexivity.
  - reflexivity.
Qed.

Lemma PutTypeExtension_roundtrip_witness :
  PutTypeExtension Garmin_Format "maps/alps.v2.TXT" = (true, "maps/alps.v2.img" : str)
  /\ DetermineType "maps/alps.v2.img" = Garmin_Format.
Proof.
  destruct (PutTypeExtension_roundtrip Garmin_Format "maps/alps.v2.TXT")
    as [H _].
  destruct H as (f & Hput & Hf & Hty); [discriminate | discriminate |].
  subst f. split; [exact Hput | exact Hty].
Defined.

(** ** Altitude parser *)

Lemma ParseAltitude_body_advances (text : str) (i s : nat) (isNumber : bool)
    (a : alt_vars) (i' s' : nat) (isNumber' : bool) (a' : alt_vars) :
  ParseAltitude_body text i s isNumber a = Next i' s' isNumber' a' ->
  i <= i'.
Proof.
  unfold ParseAltitude_body.
  destruct (negb _ || _ || _).
  - destruct (if isNumber then _ else _) as [a1|]; [|discriminate].
    destruct (valueFound a1 && typeFound a1 && unitFound a1); [discriminate|].
    destruct (_ || _); intros H; injection H as <- _ _ _; lia.
  - intros H; injection H as <- _ _ _; lia.
Qed.

Lemma ParseAltitude_loop_fuel (text : str) (fuel i s : nat)
    (isNumber : bool) (a : alt_vars) :
  length text - i <= fuel ->
  ParseAltitude_loop fuel text i s isNumber a <> ScanOutOfFuel.
Proof.
  revert i s isNumber a.
  induction fuel as [|fuel IH]; intros i s isNumber a Hfuel; simpl;
    destruct (length text <=? i) eqn:E; try discriminate.
  - apply Nat.leb_gt in E. lia.
  - apply Nat.leb_gt in E.
    destruct (ParseAltitude_body text i s isNumber a)
      as [|a'|i' s' n' a'] eqn:B; try discriminate.
    apply IH. apply ParseAltitude_body_advances in B. lia.
Qed.

(** The loop ends within the fuel it is given: the scan returns false or
    leaves the loop, for every text. *)
Lemma ParseAltitude_scan_terminates (text : str) :
  ParseAltitude_scan text <> ScanOutOfFuel.
Proof. apply ParseAltitude_loop_fuel. lia. Qed.

(** A numeric run that [std::stod] rejects makes the loop body return
    false, whatever was found before. *)
Lemma number_token_conversion_fails (token : str) (a : alt_vars) :
  stod token = None -> number_token token a = None.
Proof.
  intros H. unfold number_token. rewrite H. now destruct (negb _).
Qed.

(** A second numeric run that reaches [number_token] is refused. *)
Lemma number_token_second_value (token : str) (a : alt_vars) :
  valueFound a = true -> number_token token a = None.
Proof. intros H. unfold number_token. now rewrite H. Qed.





Section ParserProperties.

Context {collaborators : Collaborators}.

Lemma ParseAltitude_failure (text : str) (isTop : bool) (airspace : Airspace) :
  ParseAltitude_text text = None ->
  ParseAltitude text isTop airspace = (false, airspace).
Proof. intros H. unfold ParseAltitude. now rewrite H. Qed.

(** The inputs of the specification that must fail do fail, and the
    airspace is left as it was: the empty text, a text without number or
    keyword, a second numeric run that the scan reaches, a numeric run
    beyond the range of a double. *)
Lemma ParseAltitude_rejections (isTop : bool) (airspace : Airspace) :
  ParseAltitude "" isTop airspace = (false, airspace) /\
  ParseAltitude "abc" isTop airspace = (false, airspace) /\
  ParseAltitude "100 200 FT" isTop airspace = (false, airspace) /\
  ParseAltitude "100ft200" isTop airspace = (false, airspace) /\
  ParseAltitude (repeat "9"%char 400) isTop airspace = (false, airspace).
Proof.
  repeat (split; [apply ParseAltitude_failure; vm_compute; reflexivity|]).
  apply ParseAltitude_failure; vm_compute; reflexivity.
Qed.

(** C5, at the failing input ["1 2"]: the text holds two numeric runs and
    neither type nor unit, yet the call succeeds and assigns 1 ft AMSL.
    The separator at index 1 moves [i] to the last index, the loop header
    increments it once more, and the loop ends before the run ["2"] is
    looked at. *)
Theorem ParseAltitude_second_run_accepted (isTop : bool) (airspace : Airspace) :
  ParseAltitude "1 2" isTop airspace
  = (true, assign_altitude (AltFt 1 true) isTop airspace)
  /\ ParseAltitude_scan "1 2"
     = ScanEnd (set_value 1 alt_vars_init)
  /\ ParseAltitude "100 M" isTop airspace
     = (true, assign_altitude (AltFt 100 true) isTop airspace)
  /\ ParseAltitude "100ft2" isTop airspace
     = (true, assign_altitude (AltFt 100 true) isTop airspace).
Proof. repeat split. Qed.

(** C6: the texts of the specification and the altitude each one assigns. *)
Theorem ParseAltitude_accepted (isTop : bool) (airspace : Airspace) :
  let assigned alt := (true, assign_altitude alt isTop airspace) in
  ParseAltitude "FL100" isTop airspace = assigned (FlightLevel 100) /\
  (exists a, ParseAltitude_scan "FL100" = ScanEnd a
             /\ isFL a = true /\ isAMSL a = true /\ value a = 100%Z) /\
  ParseAltitude "2000ft AGL" isTop airspace = assigned (AltFt 2000 false) /\
  ParseAltitude "GND" isTop airspace = assigned (AltFt 0 false) /\
  ParseAltitude "SFC" isTop airspace = assigned (AltFt 0 false) /\
  ParseAltitude_scan "GND" = ScanEnd (set_complete false false alt_vars_init) /\
  ParseAltitude_scan "SFC" = ScanEnd (set_complete false false alt_vars_init) /\
  (let a := set_complete false false alt_vars_init in
   value a = 0%Z /\ isAMSL a = false /\ valueFound a = true
   /\ typeFound a = true /\ unitFound a = true) /\
  ParseAltitude "UNLIM" isTop airspace = assigned Unlimited /\
  ParseAltitude "UNLIMITED" isTop airspace = assigned Unlimited /\
  ParseAltitude "UNL" isTop airspace = assigned Unlimited /\
  ParseAltitude "3500 AMSL" isTop airspace = assigned (AltFt 3500 true) /\
  (exists a, ParseAltitude_scan "3500 AMSL" = ScanEnd a
             /\ unitFound a = false /\ isInFeet a = true /\ isAMSL a = true).
Proof.
  cbv zeta.
  split; [reflexivity|].
  split; [eexists; repeat split|].
  repeat (split; [reflexivity|]).
  split; [repeat split|].
  repeat (split; [reflexivity|]).
  eexists. repeat split.
Qed.

(** C9: a text of exactly one character is refused, a single digit
    included: the loop starts at index 1 and never runs, so no value is
    found. *)
Theorem ParseAltitude_single_character (text : str) (isTop : bool)
    (airspace : Airspace) :
  length text = 1 ->
  ParseAltitude_text text = None /\
  ParseAltitude text isTop airspace = (false, airspace).
Proof.
  intros H. destruct text as [|c [|c' text]]; try discriminate.
  split; reflexivity.
Qed.

End ParserProperties.

(** ** The state machine *)

Section EngineProperties.

Context {collaborators : Collaborators}.

Lemma bind_Some {A B : Type} (m : M State A) (k : A -> M State B)
    (st : State) (b : B) (st' : State) :
  bind m k st = Some (b, st') ->
  exists a st1, m st = Some (a, st1) /\ k a st1 = Some (b, st').
Proof.
  unfold bind. destruct (m st) as [[a st1]|]; [|discriminate].
  intros H. now exists a, st1.
Qed.

Lemma bind_eq {A B : Type} (m : M State A) (k : A -> M State B)
    (st st1 : State) (a : A) :
  m st = Some (a, st1) -> bind m k st = k a st1.
Proof. intros H. unfold bind. now rewrite H. Qed.

(** C10: [UnloadAirspaces] empties the output path in every state,
    whatever the waypoints are; [UnloadWaypoints] empties it exactly when
    no airspace is loaded.  Besides the output path and the completion
    flag, each of the two changes its own collection only: the other
    collection, the pending file lists, the options and the world stay as
    they were. *)
Theorem Unload_frame (st : State) :
  (exists st',
     UnloadAirspaces st = Some (tt, st') /\
     outputFile st' = [] /\ conversionDone st' = false /\ airspaces st' = [] /\
     waypoints st' = waypoints st /\
     airspaceFiles st' = airspaceFiles st /\
     terrainRasterMapFiles st' = terrainRasterMapFiles st /\
     waypointFiles st' = waypointFiles st /\
     doNotCalculateArcs st' = doNotCalculateArcs st /\
     writeCoordinatesAsDDMMSS st' = writeCoordinatesAsDDMMSS st /\
     processLineStrings st' = processLineStrings st /\
     world st' = world st) /\
  (exists st',
     UnloadWaypoints st = Some (tt, st') /\
     outputFile st' = (if is_empty (airspaces st) then [] else outputFile st) /\
     conversionDone st' = false /\ waypoints st' = [] /\
     airspaces st' = airspaces st /\
     airspaceFiles st' = airspaceFiles st /\
     terrainRasterMapFiles st' = terrainRasterMapFiles st /\
     waypointFiles st' = waypointFiles st /\
     doNotCalculateArcs st' = doNotCalculateArcs st /\
     writeCoordinatesAsDDMMSS st' = writeCoordinatesAsDDMMSS st /\
     processLineStrings st' = processLineStrings st /\
     world st' = world st).
Proof.
  split.
  - eexists. split; [reflexivity|]. repeat split.
  - unfold UnloadWaypoints, bind, modify, get, ret. cbn.
    destruct (airspaces st) eqn:E; cbn; eexists; (split; [reflexivity|]);
      cbn; rewrite ?E; repeat split.
Qed.

(** C7: the whole-globe box is answered with success before anything else
    and the state is left as it is; a box that the validation rejects is
    answered without touching the state either, and with failure for every
    box but the whole globe, which is tested first. *)
Theorem FilterOnLatLonLimits_no_filtering (st : State) :
  FilterOnLatLonLimits 90 (-90) (-180) 180 st = Some (true, st) /\
  (forall topLat bottomLat leftLon rightLon,
     IsValid (Limits_new topLat bottomLat leftLon rightLon) = false ->
     FilterOnLatLonLimits topLat bottomLat leftLon rightLon st
     = Some (is_whole_globe topLat bottomLat leftLon rightLon, st)) /\
  (forall topLat bottomLat leftLon rightLon,
     is_whole_globe topLat bottomLat leftLon rightLon = false ->
     IsValid (Limits_new topLat bottomLat leftLon rightLon) = false ->
     exists st',
       FilterOnLatLonLimits topLat bottomLat leftLon rightLon st
       = Some (false, st')
       /\ airspaces st' = airspaces st /\ waypoints st' = waypoints st
       /\ st' = st).
Proof.
  split; [reflexivity|]. split.
  - intros t b l r Hinv. unfold FilterOnLatLonLimits.
    destruct (is_whole_globe t b l r); [reflexivity|].
    now rewrite Hinv.
  - intros t b l r Hglobe Hinv. exists st. unfold FilterOnLatLonLimits.
    rewrite Hglobe, Hinv. repeat split.
Qed.

(** *** Composition rules *)

Lemma preserves_ret {A B : Type} (f : State -> B) (a : A) :
  preserves f (ret a).
Proof. intros st x st' H. injection H as _ <-. reflexivity. Qed.

Lemma preserves_get {B : Type} (f : State -> B) : preserves f get.
Proof. intros st x st' H. injection H as _ <-. reflexivity. Qed.

Lemma preserves_assert {B : Type} (f : State -> B) (b : bool) :
  preserves f (assert b).
Proof.
  intros st x st' H. unfold assert in H. destruct b; [|discriminate].
  injection H as _ <-. reflexivity.
Qed.

Lemma preserves_modify {B : Type} (f : State -> B) (g : State -> State) :
  (forall st, f (g st) = f st) -> preserves f (modify g).
Proof. intros Hg st x st' H. injection H as _ <-. apply Hg. Qed.

Lemma preserves_bind {A A' B : Type} (f : State -> B) (m : M State A)
    (k : A -> M State A') :
  preserves f m -> (forall a, preserves f (k a)) -> preserves f (bind m k).
Proof.
  intros Hm Hk st x st' H.
  apply bind_Some in H as (a & st1 & H1 & H2).
  rewrite (Hk a _ _ _ H2). exact (Hm _ _ _ H1).
Qed.

Lemma preserves_for_each {A B : Type} (f : State -> B) (l : list A)
    (body : A -> M State unit) :
  (forall x, preserves f (body x)) -> preserves f (for_each l body).
Proof.
  intros Hbody. induction l as [|x l IH]; simpl.
  - apply preserves_ret.
  - apply preserves_bind; [apply Hbody | intros _; exact IH].
Qed.

Lemma ensures_bind {A A' : Type} (m : M State A) (k : A -> M State A')
    (Q : State -> Prop) :
  (forall a, ensures (k a) Q) -> ensures (bind m k) Q.
Proof.
  intros Hk st x st' H.
  apply bind_Some in H as (a & st1 & _ & H2). exact (Hk a _ _ _ H2).
Qed.

Lemma ensures_then_preserves {A A' : Type} (m : M State A)
    (k : A -> M State A') (b : bool) :
  ensures m (fun st => conversionDone st = b) ->
  (forall a, preserves conversionDone (k a)) ->
  ensures (bind m k) (fun st => conversionDone st = b).
Proof.
  intros Hm Hk st x st' H.
  apply bind_Some in H as (a & st1 & H1 & H2).
  rewrite (Hk a _ _ _ H2). exact (Hm _ _ _ H1).
Qed.

Lemma ensures_for_each_last {A : Type} (l : list A)
    (body : A -> M State unit) (Q : State -> Prop) :
  l <> [] -> (forall x, ensures (body x) Q) -> ensures (for_each l body) Q.
Proof.
  intros Hne Hbody. induction l as [|x [|y l] IH]; [congruence| |].
  - intros st a st' H. simpl in H.
    apply bind_Some in H as (u & st1 & H1 & H2).
    injection H2 as _ <-. exact (Hbody x _ _ _ H1).
  - change (for_each (x :: y :: l) body)
      with (bind (body x) (fun _ => for_each (y :: l) body)).
    apply ensures_bind. intros _. apply IH. discriminate.
Qed.

Lemma never_completes_preserves {A : Type} (m : M State A) :
  preserves conversionDone m -> never_completes m.
Proof. intros Hm st a st' H Hdone. now rewrite <- (Hm _ _ _ H). Qed.

Lemma never_completes_ensures {A : Type} (m : M State A) :
  ensures m (fun st => conversionDone st = false) -> never_completes m.
Proof. intros Hm st a st' H Hdone. rewrite (Hm _ _ _ H) in Hdone. discriminate. Qed.

(** Steps through a composed action whose parts all leave the completion
    flag alone. *)
Ltac preserves_step :=
  match goal with
  | |- preserves _ (bind _ _) => apply preserves_bind; [|intros ?]
  | |- preserves _ (ret _) => apply preserves_ret
  | |- preserves _ get => apply preserves_get
  | |- preserves _ (assert _) => apply preserves_assert
  | |- preserves _ (modify _) =>
      apply preserves_modify; intros ?; reflexivity
  | |- preserves _ (log_message _) =>
      apply preserves_modify; intros ?; reflexivity
  | |- preserves _ (log_warning _) =>
      apply preserves_modify; intros ?; reflexivity
  | |- preserves _ (log_error _) =>
      apply preserves_modify; intros ?; reflexivity
  | |- preserves _ (for_each _ _) => apply preserves_for_each; intros ?
  | |- preserves _ (if ?b then _ else _) => destruct b
  | |- preserves _ (match ?x with _ => _ end) => destruct x
  | |- preserves _ (let _ := _ in _) => cbv zeta
  end.

(** *** Readers, writers and the completion flag *)

Lemma preserves_openAir_Read (inputFile : str) :
  preserves conversionDone (openAir_Read inputFile).
Proof.
  intros st a st' H. unfold openAir_Read in H.
  destruct (OpenAir_Read _ _ _) as [[ok w] asp].
  injection H as _ <-. reflexivity.
Qed.

Lemma preserves_both_collections reader :
  preserves conversionDone (both_collections reader).
Proof.
  intros st a st' H. unfold both_collections in H.
  destruct (reader _ _ _) as [[[ok w] asp] wpt].
  injection H as _ <-. reflexivity.
Qed.

Lemma preserves_seeYou_Read (inputFile : str) :
  preserves conversionDone (seeYou_Read inputFile).
Proof.
  intros st a st' H. unfold seeYou_Read in H.
  destruct (SeeYou_Read _ _ _) as [[ok w] wpt].
  injection H as _ <-. reflexivity.
Qed.

Lemma preserves_call_writer writer :
  preserves conversionDone (call_writer writer).
Proof.
  intros st a st' H. unfold call_writer in H.
  destruct (writer st) as [ok w].
  injection H as _ <-. reflexivity.
Qed.

Lemma preserves_LoadAirspaces_file (type : OutputType) (n : nat) (f : str) :
  preserves conversionDone (LoadAirspaces_file type n f).
Proof.
  unfold LoadAirspaces_file.
  repeat first [ apply preserves_openAir_Read
               | apply preserves_both_collections
               | preserves_step ].
Qed.

Lemma preserves_LoadWaypoints_file (counter : nat) (f : str) :
  preserves conversionDone (LoadWaypoints_file counter f).
Proof.
  unfold LoadWaypoints_file.
  repeat first [ apply preserves_seeYou_Read
               | apply preserves_both_collections
               | preserves_step ].
Qed.

Lemma preserves_LoadWaypoints_files (files : list str) (counter : nat) :
  preserves conversionDone (LoadWaypoints_files files counter).
Proof.
  revert counter. induction files as [|f files IH]; intros counter; simpl.
  - apply preserves_ret.
  - apply preserves_bind; [apply preserves_LoadWaypoints_file | intros c; apply IH].
Qed.

Lemma preserves_AddTerrainMaps (files : list str) (counter : nat) :
  preserves conversionDone (AddTerrainMaps files counter).
Proof.
  revert counter. induction files as [|f files IH]; intros counter; simpl.
  - apply preserves_ret.
  - apply preserves_bind; [|intros c; apply IH].
    intros st a st' H. unfold AddTerrainMap_count in H.
    destruct (KML_AddTerrainMap _ _) as [ok w].
    injection H as _ <-. reflexivity.
Qed.

(** *** Load, unload and the completion flag *)

Lemma ensures_modify (g : State -> State) (Q : State -> Prop) :
  (forall st, Q (g st)) -> ensures (modify g) Q.
Proof. intros Hg st a st' H. injection H as _ <-. apply Hg. Qed.

Lemma LoadAirspaces_nothing_pending (type : OutputType) (st : State) :
  airspaceFiles st = [] -> LoadAirspaces type st = Some (tt, st).
Proof. intros H. unfold LoadAirspaces, bind, get. now rewrite H. Qed.

Lemma LoadWaypoints_nothing_pending (st : State) :
  waypointFiles st = [] -> LoadWaypoints st = Some (tt, st).
Proof. intros H. unfold LoadWaypoints, bind, get. now rewrite H. Qed.

Lemma LoadAirspaces_resets (type : OutputType) (st st' : State) :
  airspaceFiles st <> [] ->
  LoadAirspaces type st = Some (tt, st') -> conversionDone st' = false.
Proof.
  intros Hne H. unfold LoadAirspaces in H.
  rewrite (bind_eq get _ st st st eq_refl) in H.
  destruct (airspaceFiles st) as [|f files] eqn:E; [congruence|].
  cbn [is_empty] in H. revert H.
  apply (ensures_then_preserves (modify (set_conversionDone false)) _ false).
  - apply ensures_modify. reflexivity.
  - intros _.
    repeat first [ apply preserves_LoadAirspaces_file | preserves_step ].
Qed.

Lemma LoadWaypoints_resets (st st' : State) :
  waypointFiles st <> [] ->
  LoadWaypoints st = Some (tt, st') -> conversionDone st' = false.
Proof.
  intros Hne H. unfold LoadWaypoints in H.
  rewrite (bind_eq get _ st st st eq_refl) in H.
  destruct (waypointFiles st) as [|f files] eqn:E; [congruence|].
  cbn [is_empty] in H. revert H.
  apply (ensures_then_preserves (modify (set_conversionDone false)) _ false).
  - apply ensures_modify. reflexivity.
  - intros _.
    repeat first [ apply preserves_LoadWaypoints_files | preserves_step ].
Qed.

Lemma LoadTerrainRasterMaps_never_completes :
  never_completes LoadTerrainRasterMaps.
Proof.
  intros st a st' H Hdone. unfold LoadTerrainRasterMaps in H.
  rewrite (bind_eq get _ st st st eq_refl) in H.
  destruct (terrainRasterMapFiles st) as [|f files] eqn:E; cbn [is_empty] in H.
  - injection H as _ Hst. rewrite Hst. exact Hdone.
  - exfalso. enough (conversionDone st' = false) by congruence.
    revert H.
    apply (ensures_then_preserves (modify (set_conversionDone false)) _ false).
    + apply ensures_modify. reflexivity.
    + intros _.
      repeat first [ apply preserves_AddTerrainMaps | preserves_step ].
Qed.

Lemma LoadAirspaces_never_completes (type : OutputType) :
  never_completes (LoadAirspaces type).
Proof.
  intros st [] st' H Hdone.
  destruct (airspaceFiles st) as [|f files] eqn:E.
  - rewrite LoadAirspaces_nothing_pending in H by exact E.
    injection H as Hst. rewrite Hst. exact Hdone.
  - rewrite (LoadAirspaces_resets type st st') in Hdone;
      [discriminate | congruence | exact H].
Qed.

Lemma LoadWaypoints_never_completes : never_completes LoadWaypoints.
Proof.
  intros st [] st' H Hdone.
  destruct (waypointFiles st) as [|f files] eqn:E.
  - rewrite LoadWaypoints_nothing_pending in H by exact E.
    injection H as Hst. rewrite Hst. exact Hdone.
  - rewrite (LoadWaypoints_resets st st') in Hdone;
      [discriminate | congruence | exact H].
Qed.

Lemma UnloadAirspaces_resets :
  ensures UnloadAirspaces (fun st => conversionDone st = false).
Proof. intros st a st' H. injection H as _ <-. reflexivity. Qed.

Lemma UnloadWaypoints_resets :
  ensures UnloadWaypoints
          (fun st => conversionDone st = false /\ waypoints st = []).
Proof.
  intros st a st' H. unfold UnloadWaypoints, bind, modify, get, ret in H.
  cbn in H. destruct (airspaces st); injection H as _ <-; split; reflexivity.
Qed.

Lemma UnloadRasterMaps_resets :
  ensures UnloadRasterMaps (fun st => conversionDone st = false).
Proof. intros st a st' H. injection H as _ <-. reflexivity. Qed.

Lemma UnloadAirspaces_total : total UnloadAirspaces.
Proof. intros st. eexists _, _. reflexivity. Qed.

Lemma UnloadWaypoints_total : total UnloadWaypoints.
Proof.
  intros st. unfold UnloadWaypoints, bind, modify, get, ret. cbn.
  destruct (airspaces st); eexists _, _; reflexivity.
Qed.

(** *** Convert *)

(** [Convert] returns the completion flag it leaves, and that flag is what
    the writer of the output type (for the compiled vendor format: the
    writer of the source file and then the external tool) answered. *)
Lemma Convert_result (st st' : State) (result : bool) :
  Convert st = Some (result, st') ->
  result = conversionDone st' /\ result = writer_reports st
  /\ outputFile st <> [].
Proof.
  unfold Convert, writer_reports, GetOutputType, bind, get, assert, ret.
  cbv beta.
  destruct (outputFile st) as [|c0 out] eqn:Eout; cbn [is_empty negb];
    [discriminate|].
  cbn [modify].
  destruct (DetermineType (c0 :: out)) eqn:Ety;
    unfold Convert_KMZ, Convert_Garmin, call_writer, log_message,
      log_warning, log_error, bind, get, modify, ret, assert;
    cbn [outputFile world airspaces waypoints doNotCalculateArcs
         writeCoordinatesAsDDMMSS set_conversionDone set_world
         conversionDone]; rewrite ?Eout.
  - destruct (KML_Write _ _ _ _) as [[ok covered] w]. cbn.
    destruct ok; cbn.
    + destruct (KML_GetNumOfRasterMaps w =? 0); [|destruct (negb covered)];
        intros H; injection H as <- <-; repeat split; discriminate.
    + intros H; injection H as <- <-; repeat split; discriminate.
  - destruct (OpenAir_Write _ _ _ _ _) as [ok w]. cbn.
    intros H; injection H as <- <-; repeat split; discriminate.
  - destruct (SeeYou_Write _ _ _) as [ok w]. cbn.
    intros H; injection H as <- <-; repeat split; discriminate.
  - destruct (Polish_Write _ _ _) as [ok w]. cbn.
    intros H; injection H as <- <-; repeat split; discriminate.
  - destruct (Polish_Write _ _ _) as [ok w]. cbn. rewrite ?Eout.
    destruct ok; cbn; rewrite ?Eout.
    + destruct (cGPSmapper _ _ _) as [done w']. cbn.
      intros H; injection H as <- <-; repeat split; discriminate.
    + intros H; injection H as <- <-; repeat split; discriminate.
  - discriminate.
Qed.

(** [Convert] goes through whenever the output path is set and resolves to
    a known type. *)
Lemma Convert_defined (st : State) :
  outputFile st <> [] -> GetOutputType st <> Unknown_Format ->
  exists result st', Convert st = Some (result, st').
Proof.
  intros Hout Hty.
  unfold Convert, bind, get, assert, ret. cbv beta.
  destruct (outputFile st) as [|c0 out] eqn:Eout; [congruence|].
  cbn [is_empty negb modify].
  destruct (GetOutputType st) eqn:Ety; try congruence;
    unfold Convert_KMZ, Convert_Garmin, call_writer, log_message,
      log_warning, log_error, bind, get, modify, ret, assert;
    cbn [outputFile world airspaces waypoints doNotCalculateArcs
         writeCoordinatesAsDDMMSS set_conversionDone set_world
         conversionDone].
  - destruct (KML_Write _ _ _ _) as [[ok covered] w]. cbn.
    destruct ok; cbn; [|eauto].
    destruct (KML_GetNumOfRasterMaps w =? 0); [|destruct (negb covered)]; eauto.
  - destruct (OpenAir_Write _ _ _ _ _) as [ok w]. cbn. eauto.
  - destruct (SeeYou_Write _ _ _) as [ok w]. cbn. eauto.
  - destruct (Polish_Write _ _ _) as [ok w]. cbn. eauto.
  - destruct (Polish_Write _ _ _) as [ok w]. cbn.
    destruct ok; cbn; [|eauto].
    destruct (cGPSmapper _ _ _) as [done w']. cbn. eauto.
Qed.

(** *** Calls that never abort *)

Lemma total_ret {A : Type} (a : A) : total (ret a).
Proof. intros st. now exists a, st. Qed.

Lemma total_get : total get.
Proof. intros st. now exists st, st. Qed.

Lemma total_modify (g : State -> State) : total (modify g).
Proof. intros st. now exists tt, (g st). Qed.

Lemma total_bind {A B : Type} (m : M State A) (k : A -> M State B) :
  total m -> (forall a, total (k a)) -> total (bind m k).
Proof.
  intros Hm Hk st. destruct (Hm st) as (a & st1 & H1).
  rewrite (bind_eq _ _ _ _ _ H1). apply Hk.
Qed.

Lemma total_for_each {A : Type} (l : list A) (body : A -> M State unit) :
  (forall x, total (body x)) -> total (for_each l body).
Proof.
  intros Hbody. induction l as [|x l IH]; simpl.
  - apply total_ret.
  - apply total_bind; [apply Hbody | intros _; exact IH].
Qed.

Lemma total_openAir_Read (inputFile : str) : total (openAir_Read inputFile).
Proof.
  intros st. unfold openAir_Read.
  destruct (OpenAir_Read _ _ _) as [[ok w] asp]. eauto.
Qed.

Lemma total_both_collections reader : total (both_collections reader).
Proof.
  intros st. unfold both_collections.
  destruct (reader _ _ _) as [[[ok w] asp] wpt]. eauto.
Qed.

Lemma total_seeYou_Read (inputFile : str) : total (seeYou_Read inputFile).
Proof.
  intros st. unfold seeYou_Read.
  destruct (SeeYou_Read _ _ _) as [[ok w] wpt]. eauto.
Qed.

Ltac total_step :=
  match goal with
  | |- total (bind _ _) => apply total_bind; [|intros ?]
  | |- total (ret _) => apply total_ret
  | |- total get => apply total_get
  | |- total (modify _) => apply total_modify
  | |- total (log_message _) => apply total_modify
  | |- total (log_warning _) => apply total_modify
  | |- total (log_error _) => apply total_modify
  | |- total (AddAirspaceFile _) => apply total_modify
  | |- total (AddWaypointFile _) => apply total_modify
  | |- total (openAir_Read _) => apply total_openAir_Read
  | |- total (seeYou_Read _) => apply total_seeYou_Read
  | |- total (both_collections _) => apply total_both_collections
  | |- total (for_each _ _) => apply total_for_each; intros ?
  | |- total (if ?b then _ else _) => destruct b
  | |- total (match ?x with _ => _ end) => destruct x
  | |- total (let _ := _ in _) => cbv zeta
  end.

(** With the default suggestion (KMZ) no assertion of [LoadAirspaces] can
    fail. *)
Lemma total_LoadAirspaces_KMZ : total (LoadAirspaces KMZ_Format).
Proof. unfold LoadAirspaces, LoadAirspaces_file. repeat total_step. Qed.

Lemma total_LoadWaypoints_files (files : list str) (counter : nat) :
  total (LoadWaypoints_files files counter).
Proof.
  revert counter. induction files as [|f files IH]; intros counter; simpl.
  - apply total_ret.
  - apply total_bind; [|intros c; apply IH].
    unfold LoadWaypoints_file. repeat total_step.
Qed.

Lemma total_LoadWaypoints : total LoadWaypoints.
Proof.
  unfold LoadWaypoints.
  repeat first [apply total_LoadWaypoints_files | total_step].
Qed.

(** Setting a non-empty output path of a known type and converting. *)
Lemma total_set_outputFile_Convert {A : Type} (file : str)
    (k : bool -> M State A) :
  file <> [] -> DetermineType file <> Unknown_Format ->
  (forall result, total (k result)) ->
  total (modify (set_outputFile file) ;; bind Convert k).
Proof.
  intros Hne Hty Hk st.
  rewrite (bind_eq (modify (set_outputFile file)) _ st
             (set_outputFile file st) tt eq_refl).
  destruct (Convert_defined (set_outputFile file st) Hne Hty)
    as (result & st' & Hconv).
  rewrite (bind_eq _ _ _ _ _ Hconv). apply Hk.
Qed.

Lemma append_keeps_name (p q : str) :
  exists prefix, path.append p q = prefix ++ q.
Proof.
  unfold path.append. destruct q as [|c q]; [exists p; now rewrite app_nil_r|].
  destruct (path.is_separator c); [now exists p|].
  destruct p as [|c0 p]; [now exists []|].
  destruct (path.is_separator _); [now exists (c0 :: p)|].
  exists ((c0 :: p) ++ "/"). now rewrite <- app_assoc.
Qed.

(** The output paths of the directory pipeline are never empty and always
    of a known type. *)
Lemma country_kmz_path (openAIPpath countryCode : str) :
  let file := path.append openAIPpath (countryCode ++ ".kmz") in
  file <> [] /\ DetermineType file = KMZ_Format.
Proof.
  cbv zeta.
  destruct (append_keeps_name openAIPpath (countryCode ++ ".kmz"))
    as [prefix ->].
  change (list_ascii_of_string ".kmz")
    with (path.dot :: list_ascii_of_string "kmz").
  rewrite app_assoc. split.
  - destruct (prefix ++ countryCode); discriminate.
  - rewrite DetermineType_dotted; try reflexivity; try discriminate;
      free_literal.
Qed.

Lemma replaced_path (file : str) (type : OutputType) :
  type <> Unknown_Format ->
  let file' := path.replace_extension file (type_extension type) in
  file' <> [] /\ DetermineType file' <> Unknown_Format.
Proof.
  intros Hty. cbv zeta. split.
  - apply replace_extension_nonempty. destruct type; try discriminate.
    congruence.
  - now rewrite DetermineType_replace_extension.
Qed.

Lemma total_convert_country (openAIPpath : str) (record : str * Contents) :
  total (convert_country openAIPpath record).
Proof.
  destruct record as [countryCode [[[asp hot] nav] wpt]].
  unfold convert_country. cbn [fst snd].
  assert (Hkmz := country_kmz_path openAIPpath countryCode).
  assert (Htxt := fun f => replaced_path f OpenAir_Format ltac:(discriminate)).
  assert (Hcup := fun f => replaced_path f SeeYou_Format ltac:(discriminate)).
  cbv zeta in Hkmz, Htxt, Hcup. cbn [type_extension] in Htxt, Hcup.
  destruct Hkmz as [Hkmz1 Hkmz2].
  repeat first
    [ apply total_LoadAirspaces_KMZ
    | apply total_LoadWaypoints
    | apply UnloadAirspaces_total
    | apply UnloadWaypoints_total
    | apply total_set_outputFile_Convert;
        [ first [exact Hkmz1 | apply Htxt | apply Hcup]
        | first [rewrite Hkmz2; discriminate | apply Htxt | apply Hcup]
        | intros ? ]
    | total_step ].
Qed.

(** The index loop only logs: it never aborts, it builds the index of the
    listing, and it leaves the object as it is but for the world. *)
Lemma build_index_result (entries : list DirEntry) (index : FilesIndex)
    (st : State) :
  exists st',
    build_index entries index st = Some (fold_left add_entry entries index, st')
    /\ conversionDone st' = conversionDone st.
Proof.
  revert index st. induction entries as [|entry entries IH]; intros index st.
  - exists st. split; reflexivity.
  - cbn [build_index fold_left].
    assert (H : exists st1, index_entry index entry st
                            = Some (add_entry index entry, st1)
                            /\ conversionDone st1 = conversionDone st).
    { unfold index_entry, add_entry, entry_record.
      destruct (_ && _ && _); [|now exists st].
      destruct (_ && _); [|eexists; split; reflexivity].
      destruct (content_of_name _); eexists; split; reflexivity. }
    destruct H as (st1 & H1 & Hflag).
    rewrite (bind_eq _ _ _ _ _ H1).
    destruct (IH (add_entry index entry) st1) as (st' & H' & Hflag').
    exists st'. split; [exact H' | congruence].
Qed.

Lemma index_add_nonempty (countryCode : str) (newContent : Contents)
    (index : FilesIndex) :
  index_add countryCode newContent index <> [].
Proof.
  unfold index_add. destruct index as [|[k v] index]; [discriminate|].
  cbn [index_find index_merge index_insert].
  destruct (str_eqb k countryCode).
  - discriminate.
  - destruct (index_find countryCode index);
      [discriminate | destruct (str_ltb countryCode k); discriminate].
Qed.

Lemma add_entry_nonempty (entries : list DirEntry) (index : FilesIndex) :
  index <> [] -> fold_left add_entry entries index <> [].
Proof.
  revert index. induction entries as [|e entries IH]; intros index Hne;
    [exact Hne|].
  cbn [fold_left]. apply IH. unfold add_entry.
  destruct (entry_record e) as [[cc c]|]; [apply index_add_nonempty | exact Hne].
Qed.

(** The index is empty exactly when no entry of the listing is a validly
    named, non-empty [.aip] file. *)
Lemma files_index_empty (entries : list DirEntry) :
  files_index entries = [] <->
  Forall (fun entry => entry_record entry = None) entries.
Proof.
  unfold files_index. induction entries as [|e entries IH].
  - split; [constructor | reflexivity].
  - cbn [fold_left]. unfold add_entry at 2.
    destruct (entry_record e) as [[cc c]|] eqn:E.
    + split.
      * intros H. exfalso. revert H. apply add_entry_nonempty.
        apply index_add_nonempty.
      * intros H. inversion H. congruence.
    + rewrite IH. split; [now constructor | intros H; now inversion H].
Qed.

(** Each country ends with both unloads: whatever its conversions did, the
    completion flag is false and both collections are empty afterwards. *)
Lemma convert_country_resets (openAIPpath : str) (record : str * Contents) :
  ensures (convert_country openAIPpath record)
          (fun st => conversionDone st = false
                     /\ airspaces st = [] /\ waypoints st = []).
Proof.
  destruct record as [countryCode [[[asp hot] nav] wpt]].
  unfold convert_country. cbn [fst snd].
  do 6 (apply ensures_bind; intros ?).
  intros st x st' H.
  apply bind_Some in H as (u & st1 & H1 & H2).
  injection H1 as _ <-.
  unfold UnloadWaypoints, bind, modify, get, ret in H2. cbn in H2.
  injection H2 as _ <-. repeat split.
Qed.

(** C8: [ConvertOpenAIPdir] never aborts.  It returns false exactly when
    the path is empty or not a directory (an empty path never is one), or
    when the listing of the directory yields an empty index, that is when
    no entry is a validly named non-empty [.aip] file.  Otherwise every
    record of the index is processed, whatever its conversions return, the
    result is true, and the object is left without airspaces and
    waypoints. *)
Theorem ConvertOpenAIPdir_result (openAIPdir : str) (st : State) :
  let entries := directory_entries (world st) openAIPdir in
  exists result st',
    ConvertOpenAIPdir openAIPdir st = Some (result, st') /\
    (result = false <->
       openAIPdir = [] \/ is_directory (world st) openAIPdir = false
       \/ files_index entries = []) /\
    (files_index entries = [] <->
       Forall (fun entry => entry_record entry = None) entries) /\
    (result = true ->
       exists st1 st2,
         (UnloadAirspaces ;; UnloadWaypoints) st = Some (tt, st1) /\
         world st1 = world st /\
         build_index entries [] st1 = Some (files_index entries, st2) /\
         for_each (files_index entries) (convert_country openAIPdir) st2
         = Some (tt, st') /\
         airspaces st' = [] /\ waypoints st' = []).
Proof.
  intros entries. unfold ConvertOpenAIPdir.
  destruct (is_empty openAIPdir) eqn:Eempty.
  { exists false, st. split; [reflexivity|].
    split; [split; [left; now destruct openAIPdir | reflexivity]|].
    split; [apply files_index_empty | discriminate]. }
  assert (Edir : openAIPdir <> []) by (intros ->; discriminate).
  rewrite (bind_eq get _ st st st eq_refl).
  destruct (is_directory (world st) openAIPdir) eqn:Hdir; cbn [negb].
  2:{ eexists false, _. split; [reflexivity|].
      split; [split; auto|].
      split; [apply files_index_empty | discriminate]. }
  destruct (UnloadWaypoints_total (set_outputFile [] (set_airspaces []
              (set_conversionDone false st)))) as ([] & st1 & Hun).
  assert (Hun' : (UnloadAirspaces ;; UnloadWaypoints) st = Some (tt, st1))
    by exact Hun.
  assert (Hw : world st1 = world st).
  { unfold UnloadWaypoints, bind, modify, get, ret in Hun. cbn in Hun.
    injection Hun as <-. reflexivity. }
  assert (Hst1 : conversionDone st1 = false /\ waypoints st1 = [])
    by exact (UnloadWaypoints_resets _ _ _ Hun).
  rewrite (bind_eq UnloadAirspaces _ st _ tt eq_refl).
  rewrite (bind_eq UnloadWaypoints _ _ _ _ Hun).
  rewrite (bind_eq get _ st1 st1 st1 eq_refl). rewrite Hw.
  fold entries.
  destruct (build_index_result entries [] st1) as (st2 & Hidx & Hflag).
  fold (files_index entries) in Hidx.
  rewrite (bind_eq _ _ _ _ _ Hidx).
  generalize (files_index_empty entries).
  destruct (files_index entries) as [|r index] eqn:Eidx; cbn [is_empty];
    intros Hempty.
  - eexists false, _. split; [reflexivity|].
    split; [split; auto|]. split; [exact Hempty | discriminate].
  - destruct (total_for_each (r :: index) (convert_country openAIPdir)
                (total_convert_country openAIPdir) st2) as ([] & st' & Hrun).
    rewrite (bind_eq _ _ _ _ _ Hrun).
    exists true, st'. split; [reflexivity|].
    split; [split; [discriminate | intros [H | [H | H]]; congruence]|].
    split; [exact Hempty|].
    intros _. exists st1, st2.
    destruct (ensures_for_each_last (r :: index) (convert_country openAIPdir)
                _ ltac:(discriminate) (convert_country_resets openAIPdir)
                _ _ _ Hrun) as (_ & Ha & Hp).
    repeat split; auto.
Qed.

(** *** The calls made for one country *)

Lemma bind_ret_l {A B : Type} (a : A) (k : A -> M State B) (st : State) :
  bind (ret a) k st = k a st.
Proof. reflexivity. Qed.

Lemma bind_assoc {A B D : Type} (m : M State A) (k : A -> M State B)
    (h : B -> M State D) (st : State) :
  bind (bind m k) h st = bind m (fun a => bind (k a) h) st.
Proof. unfold bind. destruct (m st) as [[a st1]|]; reflexivity. Qed.

Lemma bind_ext {A B : Type} (m : M State A) (k k' : A -> M State B)
    (st : State) :
  (forall a st1, k a st1 = k' a st1) -> bind m k st = bind m k' st.
Proof. intros H. unfold bind. destruct (m st) as [[a st1]|]; auto. Qed.

Lemma append_nonempty (p q : str) : q <> [] -> path.append p q <> [].
Proof.
  intros Hq. destruct (append_keeps_name p q) as [prefix ->].
  destruct q; [congruence|]. destruct prefix; discriminate.
Qed.

(** A country with an airfields file and no airspace or navaid file: the
    airfields file is queued and loaded for the tabular output, then,
    with the airfields still loaded, queued and loaded a second time
    before the KMZ output. *)
Lemma convert_country_airfields_only (openAIPpath countryCode : str)
    (hot : bool) (st : State) :
  let wptPath := path.append openAIPpath (countryCode ++ "_wpt.aip") in
  convert_country openAIPpath (countryCode, (false, hot, false, true)) st
  = (AddWaypointFile wptPath ;;
     LoadWaypoints ;;
     modify (set_outputFile (path.replace_extension wptPath ".cup")) ;;
     Convert ;;
     AddWaypointFile wptPath ;;
     LoadWaypoints ;;
     modify (set_outputFile
               (path.append openAIPpath (countryCode ++ ".kmz"))) ;;
     Convert ;;
     UnloadAirspaces ;;
     UnloadWaypoints) st.
Proof.
  intros wptPath. unfold convert_country. cbn [fst snd].
  fold wptPath. rewrite bind_ret_l.
  assert (Hpath : is_empty wptPath = false).
  { destruct wptPath eqn:E; [|reflexivity]. exfalso. revert E.
    apply append_nonempty. destruct countryCode; discriminate. }
  repeat (rewrite bind_assoc; apply bind_ext; intros ? ?).
  rewrite !bind_ret_l. rewrite Hpath. cbn [negb].
  apply bind_assoc.
Qed.

(** *** Who sets the completion flag *)

Lemma never_completes_bind {A B : Type} (m : M State A) (k : A -> M State B) :
  never_completes m -> (forall a, never_completes (k a)) ->
  never_completes (bind m k).
Proof.
  intros Hm Hk st b st' H Hdone.
  apply bind_Some in H as (a & st1 & H1 & H2).
  exact (Hm _ _ _ H1 (Hk a _ _ _ H2 Hdone)).
Qed.

Lemma preserves_build_index (entries : list DirEntry) (index : FilesIndex) :
  preserves conversionDone (build_index entries index).
Proof.
  intros st a st' H.
  destruct (build_index_result entries index st) as (st2 & H2 & Hflag).
  rewrite H2 in H. injection H as _ <-. exact Hflag.
Qed.

Lemma ConvertOpenAIPdir_never_completes (openAIPdir : str) :
  never_completes (ConvertOpenAIPdir openAIPdir).
Proof.
  unfold ConvertOpenAIPdir.
  destruct (is_empty openAIPdir);
    [apply never_completes_preserves, preserves_ret|].
  apply never_completes_bind;
    [apply never_completes_preserves, preserves_get | intros st0].
  destruct (negb _).
  { apply never_completes_preserves. repeat preserves_step. }
  apply never_completes_bind;
    [apply never_completes_ensures, UnloadAirspaces_resets | intros _].
  apply never_completes_bind.
  { apply never_completes_ensures. intros st a st' H.
    now apply UnloadWaypoints_resets in H. }
  intros _.
  apply never_completes_bind;
    [apply never_completes_preserves, preserves_get | intros st1].
  apply never_completes_bind;
    [apply never_completes_preserves, preserves_build_index | intros index].
  destruct index as [|r index]; cbn [is_empty].
  - apply never_completes_preserves. repeat preserves_step.
  - apply never_completes_ensures.
    apply ensures_then_preserves; [|intros _; apply preserves_ret].
    intros st a st' H.
    now apply (ensures_for_each_last (r :: index) _ _ ltac:(discriminate)
                 (convert_country_resets openAIPdir)) in H.
Qed.

Lemma preserves_FilterOnLatLonLimits (topLat bottomLat leftLon rightLon : float) :
  preserves conversionDone
            (FilterOnLatLonLimits topLat bottomLat leftLon rightLon).
Proof. unfold FilterOnLatLonLimits. repeat preserves_step. Qed.

(** One call: if the completion flag is set after it and was not set
    before, the call is a [Convert] that returned true, and the writer of
    the output type reported success. *)
Lemma run_op_completes (op : Op) (st st' : State) (result : bool) :
  run_op op st = Some (result, st') ->
  conversionDone st' = true ->
  conversionDone st = true \/
  (op = OpConvert /\ result = true /\ writer_reports st = true).
Proof.
  intros H Hdone.
  assert (Hvoid : forall m : M State unit,
             never_completes m -> run_op op = (m ;; ret true) ->
             conversionDone st = true).
  { intros m Hm E. rewrite E in H.
    apply bind_Some in H as (u & st1 & H1 & H2). injection H2 as _ <-.
    exact (Hm _ _ _ H1 Hdone). }
  destruct op; cbn [run_op] in *;
    try (left; eapply Hvoid; [|reflexivity]).
  - apply never_completes_preserves, preserves_modify. reflexivity.
  - apply never_completes_preserves, preserves_modify. reflexivity.
  - apply LoadAirspaces_never_completes.
  - apply LoadWaypoints_never_completes.
  - apply LoadTerrainRasterMaps_never_completes.
  - apply never_completes_ensures, UnloadAirspaces_resets.
  - apply never_completes_ensures. intros s a s' Hs.
    now apply UnloadWaypoints_resets in Hs.
  - apply never_completes_ensures, UnloadRasterMaps_resets.
  - right. destruct (Convert_result _ _ _ H) as (Hr & Hw & _).
    repeat split; congruence.
  - left. exact (ConvertOpenAIPdir_never_completes _ _ _ _ H Hdone).
  - left. now rewrite <- (preserves_FilterOnLatLonLimits _ _ _ _ _ _ _ H).
Qed.

(** C1 (amended): an unload always leaves the completion flag false.  A
    load leaves it false when its pending-file list is not empty; with an
    empty list the load returns at once and the object, flag included, is
    unchanged.  Over any sequence of calls on an object whose flag is not
    set, the flag can only be found set if the sequence contains a
    [Convert] that returned true because its writer (or the external tool)
    reported success. *)
Theorem completion_flag (st : State) :
  (forall st', UnloadAirspaces st = Some (tt, st') ->
               conversionDone st' = false) /\
  (forall st', UnloadWaypoints st = Some (tt, st') ->
               conversionDone st' = false) /\
  (forall type st', airspaceFiles st <> [] ->
                    LoadAirspaces type st = Some (tt, st') ->
                    conversionDone st' = false) /\
  (forall st', waypointFiles st <> [] ->
               LoadWaypoints st = Some (tt, st') ->
               conversionDone st' = false) /\
  (forall type, airspaceFiles st = [] ->
                LoadAirspaces type st = Some (tt, st)) /\
  (waypointFiles st = [] -> LoadWaypoints st = Some (tt, st)) /\
  (forall ops st',
     conversionDone st = false ->
     run_ops ops st = Some (tt, st') ->
     conversionDone st' = true ->
     exists before after st1 st2,
       ops = before ++ OpConvert :: after /\
       run_ops before st = Some (tt, st1) /\
       Convert st1 = Some (true, st2) /\
       writer_reports st1 = true /\
       run_ops after st2 = Some (tt, st')).
Proof.
  split; [intros st'; apply UnloadAirspaces_resets|].
  split; [intros st' H; now apply UnloadWaypoints_resets in H|].
  split; [intros type st'; apply LoadAirspaces_resets|].
  split; [intros st'; apply LoadWaypoints_resets|].
  split; [intros type; apply LoadAirspaces_nothing_pending|].
  split; [apply LoadWaypoints_nothing_pending|].
  intros ops. revert st.
  induction ops as [|op ops IH] using rev_ind; intros st st' Hclear Hrun Hdone.
  - injection Hrun as <-. congruence.
  - assert (Hsplit : exists st1 result,
               run_ops ops st = Some (tt, st1)
               /\ run_op op st1 = Some (result, st')).
    { clear IH Hdone Hclear. revert st Hrun.
      induction ops as [|o ops IHo]; intros st Hrun; cbn in Hrun.
      - apply bind_Some in Hrun as (r & s1 & H1 & H2).
        injection H2 as <-. now exists st, r.
      - apply bind_Some in Hrun as (r & s1 & H1 & H2).
        destruct (IHo _ H2) as (st1 & result & Ha & Hb).
        exists st1, result. split; [|exact Hb].
        cbn. now rewrite (bind_eq _ _ _ _ _ H1). }
    destruct Hsplit as (st1 & result & Hops & Hop).
    destruct (run_op_completes _ _ _ _ Hop Hdone) as [Hbefore | (-> & -> & Hw)].
    + destruct (IH st st1 Hclear Hops Hbefore)
        as (before & after & s1 & s2 & -> & Hb & Hc & Hw & Ha).
      exists before, (after ++ [op]), s1, s2.
      split; [now rewrite <- app_assoc|]. repeat split; auto.
      clear - Ha Hop. revert s2 Ha.
      induction after as [|o after IHa]; intros s2 Ha; cbn in *.
      * injection Ha as <-. now rewrite (bind_eq _ _ _ _ _ Hop).
      * apply bind_Some in Ha as (r & s3 & H1 & H2).
        rewrite (bind_eq _ _ _ _ _ H1). now apply IHa.
    + exists ops, [], st1, st'. repeat split; auto.
Qed.

End EngineProperties.


(** ** Reading lines *)

Lemma SafeGetline_loop_spec (sb line0 : str) :
  exists body e,
    SafeGetline_loop sb line0
    = (skipn (length (body ++ terminator e)) sb, line0 ++ body, isCRLF_of e,
       match e with
       | EndEOF => match line0 ++ body with [] => true | _ => false end
       | _ => false
       end)
    /\ sb = body ++ terminator e ++ skipn (length (body ++ terminator e)) sb
    /\ free is_line_break body
    /\ may_follow e (skipn (length (body ++ terminator e)) sb).
Proof.
  revert line0. induction sb as [|c sb IH]; intros line0.
  - exists [], EndEOF. cbn. rewrite app_nil_r. repeat split. constructor.
  - cbn [SafeGetline_loop].
    destruct (Ascii.eqb c LF) eqn:Elf.
    { apply Ascii.eqb_eq in Elf. subst c. exists [], EndLF. cbn.
      rewrite app_nil_r. repeat split. constructor. }
    destruct (Ascii.eqb c CR) eqn:Ecr.
    { apply Ascii.eqb_eq in Ecr. subst c.
      destruct sb as [|c' sb'].
      - exists [], EndCR. cbn. rewrite app_nil_r. repeat split;
          [constructor | discriminate].
      - destruct (Ascii.eqb c' LF) eqn:Elf'.
        + apply Ascii.eqb_eq in Elf'. subst c'. exists [], EndCRLF. cbn.
          rewrite app_nil_r. repeat split. constructor.
        + exists [], EndCR. cbn. rewrite app_nil_r. repeat split;
            [constructor|].
          intros rest' H. injection H as -> _. discriminate Elf'. }
    destruct (IH (line0 ++ [c])) as (body & e & Hloop & Hsb & Hfree & Hnext).
    exists (c :: body), e. rewrite Hloop. cbn [app length skipn].
    rewrite <- app_assoc. cbn [app].
    split; [reflexivity|]. split; [now rewrite <- Hsb|].
    split; [|exact Hnext].
    constructor; [|exact Hfree]. unfold is_line_break. now rewrite Elf, Ecr.
Qed.

(** The line returned by [SafeGetline] holds neither a line feed nor a
    carriage return; the buffer it was read from is that line, one of the
    four line ends (LF, CR, CR LF, end of the buffer) and the buffer left
    behind; [isCRLF] is set for CR LF and for the end of the buffer, and
    cleared for LF and for a lone CR. *)
Theorem SafeGetline_splits_buffer (input : istream) :
  exists e,
    let '(line, isCRLF, input') := SafeGetline input in
    rdbuf input = line ++ terminator e ++ rdbuf input' /\
    free is_line_break line /\
    isCRLF = isCRLF_of e /\
    may_follow e (rdbuf input').
Proof.
  unfold SafeGetline.
  assert (Hbuf : rdbuf (sentry input) = rdbuf input)
    by (unfold sentry; now destruct (good input)).
  rewrite Hbuf.
  destruct (SafeGetline_loop_spec (rdbuf input) [])
    as (body & e & -> & Hsb & Hfree & Hnext).
  exists e. cbn [rdbuf app]. repeat split; assumption.
Qed.

(** The end of the file is signalled only by a call that finds the buffer
    exhausted: a last line without line end is returned first, with the
    eofbit untouched.  A call on a buffer that is not exhausted consumes
    at least one character.  The failbit is set when the stream was not
    good at the call. *)
Theorem SafeGetline_state (input : istream) :
  let '(line, isCRLF, input') := SafeGetline input in
  eofbit input' = eofbit input || is_empty (rdbuf input) /\
  failbit input' = failbit input || negb (good input) /\
  badbit input' = badbit input /\
  (rdbuf input <> [] -> length (rdbuf input') < length (rdbuf input)) /\
  (rdbuf input = [] -> line = [] /\ isCRLF = true /\ rdbuf input' = []).
Proof.
  unfold SafeGetline.
  assert (Hs : rdbuf (sentry input) = rdbuf input
               /\ eofbit (sentry input) = eofbit input
               /\ failbit (sentry input) = failbit input || negb (good input)
               /\ badbit (sentry input) = badbit input).
  { unfold sentry. destruct (good input) eqn:G; cbn; repeat split;
      try now rewrite orb_false_r. now rewrite orb_true_r. }
  destruct Hs as (Hbuf & Heof & Hfail & Hbad). rewrite Hbuf.
  destruct (SafeGetline_loop_spec (rdbuf input) [])
    as (body & e & -> & Hsb & Hfree & Hnext).
  cbn [rdbuf eofbit failbit badbit app].
  split; [|split; [exact Hfail|split; [exact Hbad|split]]].
  - rewrite Heof. f_equal.
    destruct (rdbuf input) as [|c sb] eqn:E.
    + destruct body; [|discriminate]. destruct e; try discriminate.
      reflexivity.
    + destruct e; try reflexivity. destruct body; [|reflexivity].
      cbn in Hsb. cbn in Hnext. rewrite Hnext in Hsb. discriminate.
  - intros Hne. rewrite length_skipn.
    assert (0 < length (rdbuf input)) by (destruct (rdbuf input); [congruence | cbn; lia]).
    assert (0 < length (body ++ terminator e)); [|lia].
    destruct body; [|cbn; lia]. destruct e; cbn; try lia.
    cbn in Hsb, Hnext. rewrite Hnext in Hsb. congruence.
  - intros Hempty. rewrite Hempty in Hsb.
    destruct body; [|discriminate]. destruct e; try discriminate.
    cbn. rewrite Hempty. repeat split.
Qed.

Lemma SafeGetline_loop_reads_back (body : str) (e : line_end) (rest line0 : str) :
  free is_line_break body -> may_follow e rest ->
  SafeGetline_loop (body ++ terminator e ++ rest) line0
  = (rest, line0 ++ body, isCRLF_of e,
     match e with
     | EndEOF => match line0 ++ body with [] => true | _ => false end
     | _ => false
     end).
Proof.
  intros Hfree Hnext. revert line0.
  induction Hfree as [|c body Hc _ IH]; intros line0.
  - rewrite app_nil_r. destruct e; cbn in *.
    + reflexivity.
    + destruct rest as [|c' rest']; [reflexivity|].
      destruct (Ascii.eqb c' LF) eqn:E; [|reflexivity].
      apply Ascii.eqb_eq in E. subst c'. now destruct (Hnext rest').
    + reflexivity.
    + subst rest. reflexivity.
  - cbn [app SafeGetline_loop]. unfold is_line_break in Hc.
    apply orb_false_iff in Hc as [-> ->].
    rewrite IH. now rewrite <- app_assoc.
Qed.

(** A line without line breaks, written with any of the line ends and
    followed by the rest of the file, is read back as it was written, and
    the rest of the file is what the stream holds afterwards. *)
Theorem SafeGetline_reads_back (line : str) (e : line_end) (rest : str)
    (input : istream) :
  free is_line_break line -> may_follow e rest ->
  rdbuf input = line ++ terminator e ++ rest ->
  exists input',
    SafeGetline input = (line, isCRLF_of e, input') /\ rdbuf input' = rest.
Proof.
  intros Hfree Hnext Hbuf. unfold SafeGetline.
  assert (Hs : rdbuf (sentry input) = rdbuf input)
    by (unfold sentry; now destruct (good input)).
  rewrite Hs, Hbuf, (SafeGetline_loop_reads_back line e rest [] Hfree Hnext).
  eexists. split; reflexivity.
Qed.

Lemma SafeGetline_reads_back_witness :
  let input := {| rdbuf := "AC D" ++ [CR; LF] ++ "AN Linate";
                  eofbit := false; failbit := false; badbit := false |} in
  exists input',
    SafeGetline input = ("AC D" : str, true, input')
    /\ rdbuf input' = "AN Linate".
Proof.
  intros input.
  apply (SafeGetline_reads_back "AC D" EndCRLF "AN Linate" input).
  - repeat (apply Forall_cons; [reflexivity|]). apply Forall_nil.
  - exact I.
  - reflexivity.
Defined.

(** ** Altitude parser: general properties *)

Ltac all_ascii c := destruct c as [[] [] [] [] [] [] [] []].

Lemma isDigit_to_upper (c : ascii) : isDigit (to_upper c) = isDigit c.
Proof. all_ascii c; reflexivity. Qed.

Lemma to_upper_digit (c : ascii) : isDigit c = true -> to_upper c = c.
Proof. all_ascii c; (reflexivity || discriminate). Qed.

Lemma to_upper_idempotent (c : ascii) : to_upper (to_upper c) = to_upper c.
Proof. all_ascii c; reflexivity. Qed.

Lemma to_upper_separator (c : ascii) :
  Ascii.eqb (to_upper c) " " = Ascii.eqb c " " /\
  Ascii.eqb (to_upper c) "=" = Ascii.eqb c "=".
Proof. all_ascii c; split; reflexivity. Qed.


Lemma at_upper (text : str) (i : nat) :
  at_ (upper text) i = to_upper (at_ text i).
Proof.
  unfold at_, upper.
  change Ascii.zero with (to_upper Ascii.zero) at 1. apply map_nth.
Qed.

Lemma substr_upper (text : str) (s n : nat) :
  substr (upper text) s n = upper (substr text s n).
Proof. unfold substr, upper. now rewrite skipn_map, firstn_map. Qed.

Lemma substr_from_upper (text : str) (s : nat) :
  substr_from (upper text) s = upper (substr_from text s).
Proof. unfold substr_from, upper. now rewrite skipn_map. Qed.

Lemma iequals_upper_l (token literal : str) :
  iequals (upper token) literal = iequals token literal.
Proof.
  unfold upper. revert literal.
  induction token as [|c token IH]; intros [|d literal]; try reflexivity.
  cbn. now rewrite to_upper_idempotent, IH.
Qed.

Lemma leading_digits_upper (token : str) :
  leading_digits (upper token) = leading_digits token.
Proof.
  unfold upper. induction token as [|c token IH]; [reflexivity|].
  cbn. rewrite isDigit_to_upper. destruct (isDigit c) eqn:E; [|reflexivity].
  now rewrite to_upper_digit, IH.
Qed.

Lemma number_token_upper (token : str) (a : alt_vars) :
  number_token (upper token) a = number_token token a.
Proof. unfold number_token, stod. now rewrite leading_digits_upper. Qed.

Lemma word_token_upper (token : str) (a : alt_vars) :
  word_token (upper token) a = word_token token a.
Proof. unfold word_token. now rewrite !iequals_upper_l. Qed.

Lemma ParseAltitude_body_upper (text : str) (i s : nat) (isNumber : bool)
    (a : alt_vars) :
  ParseAltitude_body (upper text) i s isNumber a
  = ParseAltitude_body text i s isNumber a.
Proof.
  unfold ParseAltitude_body. cbv zeta.
  replace (length (upper text)) with (length text)
    by (unfold upper; now rewrite length_map).
  rewrite !at_upper, !isDigit_to_upper.
  destruct (to_upper_separator (at_ text i)) as [-> ->].
  rewrite substr_upper, substr_from_upper.
  replace (if i =? length text - 1 then upper (substr_from text s)
           else upper (substr text s (i - s)))
    with (upper (if i =? length text - 1 then substr_from text s
                 else substr text s (i - s)))
    by (now destruct (i =? length text - 1)).
  now rewrite number_token_upper, word_token_upper.
Qed.

Lemma ParseAltitude_loop_upper (fuel : nat) (text : str) (i s : nat)
    (isNumber : bool) (a : alt_vars) :
  ParseAltitude_loop fuel (upper text) i s isNumber a
  = ParseAltitude_loop fuel text i s isNumber a.
Proof.
  revert i s isNumber a. induction fuel as [|fuel IH]; intros; cbn;
    replace (length (upper text)) with (length text)
      by (unfold upper; now rewrite length_map);
    [reflexivity|].
  rewrite ParseAltitude_body_upper.
  destruct (length text <=? i); [reflexivity|].
  destruct (ParseAltitude_body text i s isNumber a); auto.
Qed.

(** The parser does not distinguish upper and lower case: a text and its
    upper-case form are both refused or give the same altitude. *)
Theorem ParseAltitude_case_insensitive (text : str) :
  ParseAltitude_text (upper text) = ParseAltitude_text text.
Proof.
  destruct text as [|c text]; [reflexivity|].
  unfold ParseAltitude_text, ParseAltitude_scan.
  change (upper (c :: text)) with (to_upper c :: upper text) at 1.
  cbv iota. change (to_upper c :: upper text) with (upper (c :: text)).
  rewrite at_upper, isDigit_to_upper.
  replace (length (upper (c :: text))) with (length (c :: text))
    by (unfold upper; now rewrite length_map).
  now rewrite ParseAltitude_loop_upper.
Qed.











(** ** The index of a directory *)

From Stdlib Require Import Permutation.

Lemma str_eqb_refl (a : str) : str_eqb a a = true.
Proof. now apply str_eqb_eq. Qed.

Lemma str_eqb_neq (a b : str) : str_eqb a b = false <-> a <> b.
Proof.
  rewrite <- str_eqb_eq. destruct (str_eqb a b); split; congruence.
Qed.

Lemma str_eqb_sym (a b : str) : str_eqb a b = str_eqb b a.
Proof.
  destruct (str_eqb a b) eqn:E.
  - apply str_eqb_eq in E. subst. symmetry. apply str_eqb_refl.
  - symmetry. apply str_eqb_neq. apply str_eqb_neq in E. congruence.
Qed.

Lemma ascii_ltb_trichotomy (x y : ascii) :
  Ascii.ltb x y = false -> Ascii.eqb x y = false -> Ascii.ltb y x = true.
Proof.
  unfold Ascii.ltb. rewrite (Ascii.compare_antisym y x).
  destruct (Ascii.compare x y) eqn:E; try reflexivity; try discriminate.
  apply Ascii.compare_eq_iff in E. subst. now rewrite Ascii.eqb_refl.
Qed.

Lemma ascii_ltb_irrefl (x : ascii) : Ascii.ltb x x = false.
Proof.
  unfold Ascii.ltb, Ascii.compare. now rewrite N.compare_refl.
Qed.

(** Of two different strings one is below the other. *)
Lemma str_ltb_trichotomy (a b : str) :
  str_ltb a b = false -> str_eqb a b = false -> str_ltb b a = true.
Proof.
  revert b. induction a as [|x a IH]; intros [|y b]; cbn; try congruence.
  destruct (Ascii.ltb x y) eqn:Hlt; [discriminate|].
  destruct (Ascii.eqb x y) eqn:Heq.
  - apply Ascii.eqb_eq in Heq. subst y.
    rewrite ascii_ltb_irrefl, Ascii.eqb_refl. cbn. apply IH.
  - intros _ _. now rewrite (ascii_ltb_trichotomy x y).
Qed.

Lemma merge_no_contents_r (c : Contents) : merge_contents c no_contents = c.
Proof. destruct c as [[[a h] n] w]. cbn. now rewrite !orb_false_r. Qed.

Lemma index_find_insert (k : str) (v : Contents) (index : FilesIndex)
    (cc : str) :
  index_find k index = None ->
  index_find cc (index_insert k v index)
  = if str_eqb k cc then Some v else index_find cc index.
Proof.
  induction index as [|[k0 v0] index IH]; intros Hnone; [reflexivity|].
  cbn [index_find] in Hnone. destruct (str_eqb k0 k) eqn:E0; [discriminate|].
  cbn [index_insert]. destruct (str_ltb k k0); [reflexivity|].
  cbn [index_find]. rewrite IH by exact Hnone.
  destruct (str_eqb k0 cc) eqn:E1; [|reflexivity].
  apply str_eqb_eq in E1. subst cc. now rewrite str_eqb_sym, E0.
Qed.

Lemma index_find_merge (k : str) (c : Contents) (index : FilesIndex)
    (cc : str) :
  index_find cc (index_merge k c index)
  = if str_eqb k cc
    then option_map (fun v => merge_contents v c) (index_find cc index)
    else index_find cc index.
Proof.
  induction index as [|[k0 v0] index IH]; [now destruct (str_eqb k cc)|].
  cbn [index_merge index_find].
  destruct (str_eqb k0 k) eqn:E0.
  - apply str_eqb_eq in E0. subst k0. cbn [index_find].
    now destruct (str_eqb k cc).
  - cbn [index_find]. rewrite IH.
    destruct (str_eqb k0 cc) eqn:E1; [|reflexivity].
    apply str_eqb_eq in E1. subst cc. now rewrite str_eqb_sym, E0.
Qed.

Lemma index_find_add (k : str) (c : Contents) (index : FilesIndex)
    (cc : str) :
  index_find cc (index_add k c index)
  = if str_eqb k cc
    then Some (match index_find cc index with
               | Some v => merge_contents v c
               | None => c
               end)
    else index_find cc index.
Proof.
  unfold index_add. destruct (index_find k index) as [v|] eqn:E.
  - rewrite index_find_merge. destruct (str_eqb k cc) eqn:Ek; [|reflexivity].
    apply str_eqb_eq in Ek. subst cc. now rewrite E.
  - rewrite index_find_insert by exact E.
    destruct (str_eqb k cc) eqn:Ek; [|reflexivity].
    apply str_eqb_eq in Ek. subst cc. now rewrite E.
Qed.

Lemma index_find_fold (entries : list DirEntry) (index : FilesIndex)
    (cc : str) :
  index_find cc (fold_left add_entry entries index)
  = match index_find cc index with
    | Some v => Some (merge_contents v (country_contents entries cc))
    | None => if country_listed entries cc
              then Some (country_contents entries cc) else None
    end.
Proof.
  revert index. induction entries as [|e entries IH]; intros index.
  - cbn [fold_left].
    destruct (index_find cc index) as [v|]; [|reflexivity].
    f_equal. symmetry. apply (merge_no_contents_r v).
  - cbn [fold_left]. rewrite IH. unfold add_entry.
    unfold country_contents, country_listed, entry_contents.
    cbn [existsb].
    destruct (entry_record e) as [[k c]|]; cbn [orb has_asp].
    + rewrite index_find_add.
      destruct (str_eqb k cc) eqn:Ek; cbn [orb].
      * destruct c as [[[a h] n] w].
        destruct (index_find cc index) as [[[[a0 h0] n0] w0]|];
          cbn; now rewrite ?orb_assoc.
      * destruct (index_find cc index) as [v|]; reflexivity.
    + destruct (index_find cc index) as [v|]; reflexivity.
Qed.

(** The record of a country in the index of a listing holds, for each
    kind of content, whether some entry of the listing is a non-empty
    regular [.aip] file named for that country and that kind; a country
    no entry names has no record.  Several files of one country are
    merged into one record. *)
Theorem files_index_lookup (entries : list DirEntry) (countryCode : str) :
  index_find countryCode (files_index entries)
  = if country_listed entries countryCode
    then Some (country_contents entries countryCode) else None.
Proof.
  unfold files_index. rewrite index_find_fold. cbn [index_find].
  reflexivity.
Qed.

Lemma index_merge_keys (k : str) (c : Contents) (index : FilesIndex) :
  map fst (index_merge k c index) = map fst index.
Proof.
  induction index as [|[k0 v0] index IH]; [reflexivity|]. cbn.
  destruct (str_eqb k0 k); cbn; now rewrite ?IH.
Qed.

Lemma index_find_None (k : str) (index : FilesIndex) :
  index_find k index = None -> ~ In k (map fst index).
Proof.
  induction index as [|[k0 v0] index IH]; cbn; [tauto|].
  destruct (str_eqb k0 k) eqn:E; [discriminate|].
  intros H [H0 | H0]; [|now apply IH].
  subst. now rewrite str_eqb_refl in E.
Qed.

Lemma index_insert_keys (k : str) (v : Contents) (index : FilesIndex)
    (x : str) :
  In x (map fst (index_insert k v index)) <-> x = k \/ In x (map fst index).
Proof.
  induction index as [|[k0 v0] index IH]; cbn; [intuition|].
  destruct (str_ltb k k0); cbn; [intuition|]. rewrite IH. intuition.
Qed.

Lemma index_insert_NoDup (k : str) (v : Contents) (index : FilesIndex) :
  ~ In k (map fst index) -> NoDup (map fst index) ->
  NoDup (map fst (index_insert k v index)).
Proof.
  induction index as [|[k0 v0] index IH]; cbn; intros Hin Hnd.
  - constructor; [tauto | constructor].
  - destruct (str_ltb k k0); cbn.
    + constructor; [exact Hin | exact Hnd].
    + inversion Hnd as [|? ? Hk0 Hnd']; subst.
      constructor; [|apply IH; tauto].
      rewrite index_insert_keys. intros [-> | H]; tauto.
Qed.

Lemma index_insert_ascending (k : str) (v : Contents) (index : FilesIndex) :
  index_find k index = None ->
  keys_ascending (map fst index) = true ->
  keys_ascending (map fst (index_insert k v index)) = true.
Proof.
  induction index as [|[k0 v0] index IH]; intros Hnone Hasc; [reflexivity|].
  cbn [index_find] in Hnone. destruct (str_eqb k0 k) eqn:E0; [discriminate|].
  cbn [index_insert]. destruct (str_ltb k k0) eqn:Hlt.
  - cbn [map fst keys_ascending] in *. now rewrite Hlt.
  - assert (Hk0 : str_ltb k0 k = true).
    { apply str_ltb_trichotomy; [exact Hlt|]. now rewrite str_eqb_sym. }
    assert (Htail : keys_ascending (map fst index) = true).
    { cbn [map fst keys_ascending] in Hasc.
      destruct index as [|[k1 v1] index']; [reflexivity|].
      cbn [map fst] in Hasc. now apply andb_true_iff in Hasc as [_ ?]. }
    specialize (IH Hnone Htail).
    destruct index as [|[k1 v1] index'].
    + cbn. now rewrite Hk0.
    + cbn [index_insert] in *. cbn [map fst keys_ascending] in Hasc.
      apply andb_true_iff in Hasc as [H01 _].
      destruct (str_ltb k k1).
      * cbn [map fst] in *.
        change (str_ltb k0 k && keys_ascending (k :: k1 :: map fst index')
                = true).
        now rewrite Hk0.
      * cbn [map fst] in *.
        change (str_ltb k0 k1
                && keys_ascending
                     (k1 :: map fst (index_insert k v index')) = true).
        now rewrite H01.
Qed.

(** Adding the entries of a listing keeps an index free of duplicates
    and in ascending order. *)
Lemma fold_add_entry_keys (entries : list DirEntry) (index : FilesIndex) :
  NoDup (map fst index) /\ keys_ascending (map fst index) = true ->
  NoDup (map fst (fold_left add_entry entries index))
  /\ keys_ascending (map fst (fold_left add_entry entries index)) = true.
Proof.
  revert index.
  induction entries as [|e entries IH]; intros index Hindex; [exact Hindex|].
  cbn [fold_left]. apply IH. unfold add_entry.
  destruct (entry_record e) as [[k c]|]; [|exact Hindex].
  destruct Hindex as [Hnd Hasc]. unfold index_add.
  destruct (index_find k index) eqn:E.
  - now rewrite index_merge_keys.
  - split.
    + apply index_insert_NoDup; [now apply index_find_None | exact Hnd].
    + now apply index_insert_ascending.
Qed.

(** The index holds every country once and in ascending order of the
    country codes, whatever the order of the directory listing: the
    countries are converted in that order. *)
Theorem files_index_keys (entries : list DirEntry) :
  NoDup (map fst (files_index entries)) /\
  keys_ascending (map fst (files_index entries)) = true.
Proof.
  unfold files_index. apply fold_add_entry_keys.
  split; [constructor | reflexivity].
Qed.

Lemma ascii_ltb_N (x y : ascii) :
  Ascii.ltb x y = true <-> (N_of_ascii x < N_of_ascii y)%N.
Proof.
  unfold Ascii.ltb, Ascii.compare. rewrite <- N.compare_lt_iff.
  destruct (N_of_ascii x ?= N_of_ascii y)%N; split; congruence.
Qed.

Lemma str_ltb_irrefl (a : str) : str_ltb a a = false.
Proof.
  induction a as [|x a IH]; [reflexivity|]. cbn.
  now rewrite ascii_ltb_irrefl, Ascii.eqb_refl.
Qed.

Lemma str_ltb_trans (a b c : str) :
  str_ltb a b = true -> str_ltb b c = true -> str_ltb a c = true.
Proof.
  revert b c. induction a as [|x a IH]; intros [|y b] [|z c]; cbn;
    try congruence.
  destruct (Ascii.ltb x y) eqn:Hxy.
  - intros _. destruct (Ascii.ltb y z) eqn:Hyz.
    + intros _. apply ascii_ltb_N in Hxy, Hyz.
      replace (Ascii.ltb x z) with true; [reflexivity|].
      symmetry. apply ascii_ltb_N. lia.
    + destruct (Ascii.eqb y z) eqn:Eyz; [|discriminate].
      apply Ascii.eqb_eq in Eyz. subst z. now rewrite Hxy.
  - destruct (Ascii.eqb x y) eqn:Exy; [|discriminate].
    apply Ascii.eqb_eq in Exy. subst y. intros Hab.
    destruct (Ascii.ltb x z); [reflexivity|].
    destruct (Ascii.eqb x z); [|discriminate]. now apply IH.
Qed.

Lemma keys_ascending_tail (k : str) (keys : list str) :
  keys_ascending (k :: keys) = true ->
  keys_ascending keys = true /\ Forall (fun k' => str_ltb k k' = true) keys.
Proof.
  revert k. induction keys as [|k1 keys IH]; intros k H.
  - split; [reflexivity | constructor].
  - cbn [keys_ascending] in H. apply andb_true_iff in H as [Hlt Hasc].
    split; [exact Hasc|]. constructor; [exact Hlt|].
    destruct (IH k1 Hasc) as [_ Hall].
    eapply Forall_impl; [|exact Hall].
    intros k' Hk'. cbn in Hk'. now apply (str_ltb_trans k k1 k').
Qed.

Lemma index_find_above (k : str) (index : FilesIndex) :
  Forall (fun k' => str_ltb k k' = true) (map fst index) ->
  index_find k index = None.
Proof.
  induction index as [|[k0 v0] index IH]; intros H; [reflexivity|].
  inversion H as [|? ? Hlt Hrest]; subst. cbn [index_find].
  destruct (str_eqb k0 k) eqn:E; [|now apply IH].
  apply str_eqb_eq in E. cbn in Hlt. subst.
  now rewrite str_ltb_irrefl in Hlt.
Qed.

Lemma index_find_Some_key (k : str) (v : Contents) (index : FilesIndex) :
  index_find k index = Some v -> In k (map fst index).
Proof.
  induction index as [|[k0 v0] index IH]; [discriminate|]. cbn.
  destruct (str_eqb k0 k) eqn:E; [|intros H; right; now apply IH].
  apply str_eqb_eq in E. now left.
Qed.

(** Two indexes in ascending order that answer every lookup alike are
    the same list. *)
Lemma index_ascending_ext (index1 index2 : FilesIndex) :
  keys_ascending (map fst index1) = true ->
  keys_ascending (map fst index2) = true ->
  (forall k, index_find k index1 = index_find k index2) ->
  index1 = index2.
Proof.
  revert index2.
  induction index1 as [|[k1 v1] index1 IH]; intros [|[k2 v2] index2] H1 H2 Hfind.
  - reflexivity.
  - specialize (Hfind k2). cbn in Hfind. now rewrite str_eqb_refl in Hfind.
  - specialize (Hfind k1). cbn in Hfind. now rewrite str_eqb_refl in Hfind.
  - cbn [map fst] in H1, H2.
    apply keys_ascending_tail in H1 as [Hasc1 Hall1].
    apply keys_ascending_tail in H2 as [Hasc2 Hall2].
    assert (Hk : k1 = k2).
    { pose proof (Hfind k1) as F1. pose proof (Hfind k2) as F2.
      cbn [index_find] in F1, F2. rewrite str_eqb_refl in F1, F2.
      destruct (str_eqb k2 k1) eqn:E21; [now apply str_eqb_eq in E21|].
      rewrite str_eqb_sym, E21 in F2.
      symmetry in F1. apply index_find_Some_key in F1.
      apply index_find_Some_key in F2.
      pose proof (proj1 (Forall_forall _ _) Hall2 _ F1) as L21.
      pose proof (proj1 (Forall_forall _ _) Hall1 _ F2) as L12.
      cbn in L21, L12.
      pose proof (str_ltb_trans _ _ _ L12 L21) as Habs.
      now rewrite str_ltb_irrefl in Habs. }
    subst k2.
    assert (Hv : v1 = v2).
    { specialize (Hfind k1). cbn in Hfind. rewrite str_eqb_refl in Hfind.
      congruence. }
    subst v2. f_equal. apply IH; try assumption.
    intros k. destruct (str_eqb k1 k) eqn:E.
    + apply str_eqb_eq in E. subst k.
      now rewrite !index_find_above.
    + specialize (Hfind k). cbn in Hfind. now rewrite E in Hfind.
Qed.

Lemma existsb_Permutation {A : Type} (f : A -> bool) (l l' : list A) :
  Permutation l l' -> existsb f l = existsb f l'.
Proof.
  intros HP.
  destruct (existsb f l) eqn:E; symmetry.
  - apply existsb_exists in E as (x & Hin & Hx). apply existsb_exists.
    exists x. split; [|exact Hx]. now apply (Permutation_in _ HP).
  - destruct (existsb f l') eqn:E'; [|reflexivity].
    apply existsb_exists in E' as (x & Hin & Hx).
    assert (existsb f l = true); [|congruence].
    apply existsb_exists. exists x. split; [|exact Hx].
    apply (Permutation_in _ (Permutation_sym HP)). exact Hin.
Qed.

(** The index does not depend on the order in which the directory is
    listed: two listings with the same entries give the same index. *)
Theorem files_index_order_independent (entries entries' : list DirEntry) :
  Permutation entries entries' ->
  files_index entries = files_index entries'.
Proof.
  intros HP.
  assert (Hasc : forall l,
             keys_ascending (map fst (files_index l)) = true).
  { intros l. unfold files_index.
    apply (fold_add_entry_keys l []). split; [constructor | reflexivity]. }
  apply index_ascending_ext; [apply Hasc | apply Hasc |].
  intros k. unfold files_index. rewrite !index_find_fold. cbn [index_find].
  unfold country_listed, country_contents.
  now rewrite !(existsb_Permutation _ entries entries' HP).
Qed.

Lemma files_index_order_independent_witness :
  files_index [Demo.file_entry "d/it_wpt.aip"; Demo.file_entry "d/ch_asp.aip";
               Demo.file_entry "d/it_asp.aip"]
  = files_index [Demo.file_entry "d/it_asp.aip";
                 Demo.file_entry "d/it_wpt.aip";
                 Demo.file_entry "d/ch_asp.aip"].
Proof.
  apply files_index_order_independent.
  apply perm_trans with
    [Demo.file_entry "d/it_wpt.aip"; Demo.file_entry "d/it_asp.aip";
     Demo.file_entry "d/ch_asp.aip"].
  - apply perm_skip. apply perm_swap.
  - apply perm_swap.
Defined.

(** ** Type resolver: composition *)

Lemma erase_dotted (base e : str) :
  e <> [] -> free path.is_separator e -> free path.is_dot e ->
  firstn (length (base ++ path.dot :: e)
          - length (path.extension (base ++ path.dot :: e)))
         (base ++ path.dot :: e)
  = base.
Proof.
  intros Hne Hsep Hdot. rewrite extension_dotted by assumption.
  rewrite length_app. replace (_ + _ - _) with (length base) by lia.
  now rewrite firstn_app, firstn_all, Nat.sub_diag, app_nil_r.
Qed.

Lemma replace_extension_twice (type1 type2 : OutputType) (filename : str) :
  type1 <> Unknown_Format ->
  path.replace_extension
    (path.replace_extension filename (type_extension type1))
    (type_extension type2)
  = path.replace_extension filename (type_extension type2).
Proof.
  intros H1. unfold path.replace_extension at 2.
  set (erased := firstn _ filename).
  destruct type1; try congruence;
    cbn [type_extension list_ascii_of_string];
    change (path.is_dot ".") with true; cbv iota;
    unfold path.replace_extension;
    (rewrite erase_dotted; [reflexivity | discriminate | free_literal
                           | free_literal]).
Qed.

Lemma PutTypeExtension_known (type : OutputType) (filename : str) :
  filename <> [] -> type <> Unknown_Format ->
  PutTypeExtension type filename
  = (true, path.replace_extension filename (type_extension type)).
Proof.
  intros Hf Ht. destruct filename; [congruence|].
  destruct type; try congruence; reflexivity.
Qed.

(** Putting the extension of a type on a path that already carries the
    extension of another type gives the same path as putting it on the
    original path: the last type wins, and putting the same extension
    twice changes nothing more. *)
Theorem PutTypeExtension_last_wins (type1 type2 : OutputType)
    (filename : str) :
  type2 <> Unknown_Format ->
  PutTypeExtension type2 (snd (PutTypeExtension type1 filename))
  = PutTypeExtension type2 filename.
Proof.
  intros H2. destruct filename as [|c filename]; [reflexivity|].
  assert (Hne : c :: filename <> []) by discriminate.
  destruct (OutputType_eqb type1 Unknown_Format) eqn:E1.
  { destruct type1; try discriminate E1. reflexivity. }
  assert (H1 : type1 <> Unknown_Format) by (intros ->; discriminate).
  assert (Hreplaced :
            path.replace_extension (c :: filename) (type_extension type1)
            <> []).
  { apply replace_extension_nonempty.
    destruct type1; try discriminate; congruence. }
  rewrite (PutTypeExtension_known type1) by assumption. cbn [snd].
  rewrite (PutTypeExtension_known type2 _ Hreplaced H2).
  rewrite (PutTypeExtension_known type2 _ Hne H2).
  now rewrite replace_extension_twice.
Qed.

Lemma PutTypeExtension_last_wins_witness :
  PutTypeExtension Garmin_Format
    (snd (PutTypeExtension OpenAir_Format "maps/alps.v2.kmz"))
  = (true, "maps/alps.v2.img" : str).
Proof.
  rewrite (PutTypeExtension_last_wins OpenAir_Format Garmin_Format
             "maps/alps.v2.kmz"); [reflexivity | discriminate].
Defined.

(** ** The state machine: frames, preconditions, composition *)

Section EngineFrames.

Context {collaborators : Collaborators}.

Lemma reach_openAir_Read {B : Type} (f : State -> B) (inputFile : str) :
  out_of_reach f -> preserves f (openAir_Read inputFile).
Proof.
  intros (Hw & Ha & Hp) st a st' H. unfold openAir_Read in H.
  destruct (OpenAir_Read _ _ _) as [[ok w] asp].
  injection H as _ <-. now rewrite Hw, Ha.
Qed.

Lemma reach_both_collections {B : Type} (f : State -> B) reader :
  out_of_reach f -> preserves f (both_collections reader).
Proof.
  intros (Hw & Ha & Hp) st a st' H. unfold both_collections in H.
  destruct (reader _ _ _) as [[[ok w] asp] wpt].
  injection H as _ <-. now rewrite Hw, Hp, Ha.
Qed.

Lemma reach_seeYou_Read {B : Type} (f : State -> B) (inputFile : str) :
  out_of_reach f -> preserves f (seeYou_Read inputFile).
Proof.
  intros (Hw & Ha & Hp) st a st' H. unfold seeYou_Read in H.
  destruct (SeeYou_Read _ _ _) as [[ok w] wpt].
  injection H as _ <-. now rewrite Hw, Hp.
Qed.

Lemma world_call_writer {B : Type} (f : State -> B) writer :
  (forall w st, f (set_world w st) = f st) ->
  preserves f (call_writer writer).
Proof.
  intros Hw st a st' H. unfold call_writer in H.
  destruct (writer st) as [ok w].
  injection H as _ <-. apply Hw.
Qed.

(** Steps through a composed action; a [modify] is left to the caller
    unless it is closed by computation. *)
Ltac frame_step :=
  match goal with
  | |- preserves _ (bind _ _) => apply preserves_bind; [|intros ?]
  | |- preserves _ (ret _) => apply preserves_ret
  | |- preserves _ get => apply preserves_get
  | |- preserves _ (assert _) => apply preserves_assert
  | |- preserves _ (log_message _) => apply preserves_modify; intros ?
  | |- preserves _ (log_warning _) => apply preserves_modify; intros ?
  | |- preserves _ (log_error _) => apply preserves_modify; intros ?
  | |- preserves _ (modify _) => apply preserves_modify; intros ?
  | |- preserves _ (call_writer _) => apply world_call_writer; intros ? ?
  | |- preserves _ (for_each _ _) => apply preserves_for_each; intros ?
  | |- preserves _ (if ?b then _ else _) => destruct b
  | |- preserves _ (match ?x with _ => _ end) => destruct x
  | |- preserves _ (let _ := _ in _) => cbv zeta
  end.

(** *** Convert *)



(** The assertions of [Convert] fail exactly when no output path is set
    or when the extension of the output path is of no known type; in
    every other state the call returns. *)
Theorem Convert_aborts_iff (st : State) :
  Convert st = None <->
  outputFile st = [] \/ GetOutputType st = Unknown_Format.
Proof.
  split.
  - intros Habort.
    destruct (outputFile st) as [|c out] eqn:Eout; [now left|].
    destruct (GetOutputType st) eqn:Ety; try (now right); exfalso;
      (destruct (Convert_defined st) as (r & st' & H);
       [rewrite Eout; discriminate | rewrite Ety; discriminate | congruence]).
  - unfold Convert, bind, get, assert. cbv beta.
    intros [Hout | Hty].
    + now rewrite Hout.
    + destruct (outputFile st) eqn:E; [reflexivity|].
      cbn [is_empty negb modify]. rewrite Hty. reflexivity.
Qed.

(** *** Load: the pending lists and the other components *)

Lemma LoadAirspaces_file_keeps {B : Type} (f : State -> B)
    (type : OutputType) (n : nat) (inputFile : str) :
  out_of_reach f -> (forall v st, f (set_outputFile v st) = f st) ->
  preserves f (LoadAirspaces_file type n inputFile).
Proof.
  intros Hf Hout. pose proof Hf as (Hw & _ & _). unfold LoadAirspaces_file.
  repeat first [ apply reach_openAir_Read; exact Hf
               | apply reach_both_collections; exact Hf
               | frame_step ]; auto.
Qed.

Lemma LoadWaypoints_files_keeps {B : Type} (f : State -> B)
    (files : list str) (counter : nat) :
  out_of_reach f -> (forall v st, f (set_outputFile v st) = f st) ->
  preserves f (LoadWaypoints_files files counter).
Proof.
  intros Hf Hout. pose proof Hf as (Hw & _ & _).
  revert counter. induction files as [|file files IH]; intros counter;
    cbn [LoadWaypoints_files].
  - apply preserves_ret.
  - apply preserves_bind; [|intros c; apply IH].
    unfold LoadWaypoints_file.
    repeat first [ apply reach_seeYou_Read; exact Hf
                 | apply reach_both_collections; exact Hf
                 | frame_step ]; auto.
Qed.

Lemma LoadAirspaces_keeps {B : Type} (f : State -> B) (type : OutputType) :
  out_of_reach f -> (forall v st, f (set_outputFile v st) = f st) ->
  (forall v st, f (set_conversionDone v st) = f st) ->
  (forall v st, f (set_airspaceFiles v st) = f st) ->
  preserves f (LoadAirspaces type).
Proof.
  intros Hf Hout Hdone Hfiles. pose proof Hf as (Hw & _ & _).
  unfold LoadAirspaces.
  repeat first [ apply LoadAirspaces_file_keeps; assumption
               | frame_step ]; auto.
Qed.

Lemma LoadWaypoints_keeps {B : Type} (f : State -> B) :
  out_of_reach f -> (forall v st, f (set_outputFile v st) = f st) ->
  (forall v st, f (set_conversionDone v st) = f st) ->
  (forall v st, f (set_waypointFiles v st) = f st) ->
  preserves f LoadWaypoints.
Proof.
  intros Hf Hout Hdone Hfiles. pose proof Hf as (Hw & _ & _).
  unfold LoadWaypoints.
  repeat first [ apply LoadWaypoints_files_keeps; assumption
               | frame_step ]; auto.
Qed.

Ltac reach := repeat split; intros; reflexivity.

(** A load that returns has consumed its pending list, whether the files
    could be read or not, and has left the other pending lists and the
    options alone; [LoadWaypoints] always returns. *)
Theorem Load_consumes_pending (st : State) :
  (forall type st',
     LoadAirspaces type st = Some (tt, st') ->
     airspaceFiles st' = [] /\
     waypointFiles st' = waypointFiles st /\
     terrainRasterMapFiles st' = terrainRasterMapFiles st /\
     doNotCalculateArcs st' = doNotCalculateArcs st /\
     writeCoordinatesAsDDMMSS st' = writeCoordinatesAsDDMMSS st /\
     processLineStrings st' = processLineStrings st) /\
  (exists st',
     LoadWaypoints st = Some (tt, st') /\
     waypointFiles st' = [] /\
     airspaceFiles st' = airspaceFiles st /\
     terrainRasterMapFiles st' = terrainRasterMapFiles st /\
     doNotCalculateArcs st' = doNotCalculateArcs st /\
     writeCoordinatesAsDDMMSS st' = writeCoordinatesAsDDMMSS st /\
     processLineStrings st' = processLineStrings st).
Proof.
  split.
  - intros type st' H. split.
    + destruct (airspaceFiles st) as [|f files] eqn:E.
      * rewrite LoadAirspaces_nothing_pending in H by exact E.
        injection H as <-. exact E.
      * unfold LoadAirspaces in H.
        rewrite (bind_eq get _ st st st eq_refl), E in H. cbn [is_empty] in H.
        match type of H with
        | ?m _ = _ =>
            enough (Hens : ensures m (fun s => airspaceFiles s = []))
              by exact (Hens _ _ _ H)
        end.
        do 4 (apply ensures_bind; intros ?).
        apply ensures_modify. reflexivity.
    + repeat split;
        (eapply (LoadAirspaces_keeps _ type); [..|exact H]; reach).
  - destruct (total_LoadWaypoints st) as ([] & st' & H). exists st'.
    split; [exact H|]. split.
    + destruct (waypointFiles st) as [|f files] eqn:E.
      * rewrite LoadWaypoints_nothing_pending in H by exact E.
        injection H as <-. exact E.
      * unfold LoadWaypoints in H.
        rewrite (bind_eq get _ st st st eq_refl), E in H. cbn [is_empty] in H.
        apply bind_Some in H as (u & s1 & _ & H).
        apply bind_Some in H as (c & s2 & _ & H).
        apply bind_Some in H as (u2 & s3 & H3 & H).
        injection H3 as _ <-.
        apply bind_Some in H as (s4 & s5 & H4 & H).
        injection H4 as <- <-.
        destruct (0 <? c); injection H as <-; reflexivity.
    + repeat split; (eapply LoadWaypoints_keeps; [..|exact H]; reach).
Qed.

(** *** Load: the output path *)

Ltac defined_step :=
  match goal with
  | |- total (bind _ _) => apply total_bind; [|intros ?]
  | |- total (ret _) => apply total_ret
  | |- total get => apply total_get
  | |- total (modify _) => apply total_modify
  | |- total (log_message _) => apply total_modify
  | |- total (log_warning _) => apply total_modify
  | |- total (log_error _) => apply total_modify
  | |- total (openAir_Read _) => apply total_openAir_Read
  | |- total (seeYou_Read _) => apply total_seeYou_Read
  | |- total (both_collections _) => apply total_both_collections
  | |- total (if ?b then _ else _) => destruct b
  | |- total (match ?x with _ => _ end) => destruct x
  end.

Ltac keeps_output :=
  repeat first [ apply reach_openAir_Read; reach
               | apply reach_seeYou_Read; reach
               | apply reach_both_collections; reach
               | frame_step ]; auto.

Lemma runs_and_keeps {A B : Type} (f : State -> B) (m : M State A)
    (st : State) :
  total m -> preserves f m ->
  exists a st1, m st = Some (a, st1) /\ f st1 = f st.
Proof.
  intros Ht Hp. destruct (Ht st) as (a & st1 & H).
  exists a, st1. split; [exact H | exact (Hp _ _ _ H)].
Qed.

Lemma LoadAirspaces_file_output_set (type : OutputType) (n : nat)
    (inputFile : str) (st : State) :
  outputFile st <> [] ->
  exists st',
    LoadAirspaces_file type n inputFile st = Some (tt, st')
    /\ outputFile st' = outputFile st.
Proof.
  intros Hout. unfold LoadAirspaces_file. cbv zeta.
  match goal with
  | |- exists st', bind ?m ?k st = _ /\ _ =>
      destruct (runs_and_keeps outputFile m st)
        as (known & st1 & Hread & Hkeep);
        [repeat defined_step | keeps_output |]
  end.
  rewrite (bind_eq _ _ _ _ _ Hread).
  destruct known; [|now exists st1].
  rewrite (bind_eq get _ st1 st1 st1 eq_refl).
  replace (is_empty (outputFile st1)) with false
    by (rewrite Hkeep; now destruct (outputFile st)).
  rewrite andb_false_r. now exists st1.
Qed.

Lemma LoadWaypoints_file_output_set (counter : nat) (inputFile : str)
    (st : State) :
  outputFile st <> [] ->
  exists counter' st',
    LoadWaypoints_file counter inputFile st = Some (counter', st')
    /\ outputFile st' = outputFile st.
Proof.
  intros Hout. unfold LoadWaypoints_file. cbv zeta.
  match goal with
  | |- exists c st', bind ?m ?k st = _ /\ _ =>
      destruct (runs_and_keeps outputFile m st)
        as (read & st1 & Hread & Hkeep);
        [repeat defined_step | keeps_output |]
  end.
  rewrite (bind_eq _ _ _ _ _ Hread).
  destruct read as [readOk|]; [|now exists counter, st1].
  rewrite (bind_eq get _ st1 st1 st1 eq_refl).
  replace (is_empty (outputFile st1)) with false
    by (rewrite Hkeep; now destruct (outputFile st)).
  rewrite andb_false_r. eexists _, st1. split; [reflexivity | exact Hkeep].
Qed.

(** An output path that is already set is never replaced by a load, and
    then [LoadAirspaces] returns whatever type is suggested: the switch
    on the suggested type, with its assertion, is not reached. *)
Theorem Load_keeps_output_path (st : State) :
  outputFile st <> [] ->
  (forall type, exists st',
     LoadAirspaces type st = Some (tt, st')
     /\ outputFile st' = outputFile st) /\
  (exists st',
     LoadWaypoints st = Some (tt, st') /\ outputFile st' = outputFile st).
Proof.
  intros Hout. split.
  - intros type.
    assert (Hloop : forall files s,
               outputFile s <> [] ->
               exists s',
                 for_each files
                   (LoadAirspaces_file type (length (airspaces st))) s
                 = Some (tt, s') /\ outputFile s' = outputFile s).
    { induction files as [|file files IH]; intros s Hs.
      - now exists s.
      - cbn [for_each].
        destruct (LoadAirspaces_file_output_set
                    type (length (airspaces st)) file s Hs)
          as (s1 & H1 & E1).
        rewrite (bind_eq _ _ _ _ _ H1).
        destruct (IH s1) as (s' & H' & E'); [congruence|].
        exists s'. split; [exact H' | congruence]. }
    unfold LoadAirspaces. rewrite (bind_eq get _ st st st eq_refl).
    destruct (is_empty (airspaceFiles st)); [now exists st|].
    rewrite (bind_eq (modify (set_conversionDone false)) _ st _ tt eq_refl).
    destruct (Hloop (airspaceFiles st) (set_conversionDone false st) Hout)
      as (s' & H' & E').
    rewrite (bind_eq _ _ _ _ _ H').
    eexists. split; [reflexivity | exact E'].
  - assert (Hloop : forall files counter s,
               outputFile s <> [] ->
               exists counter' s',
                 LoadWaypoints_files files counter s = Some (counter', s')
                 /\ outputFile s' = outputFile s).
    { induction files as [|file files IH]; intros counter s Hs.
      - now exists counter, s.
      - cbn [LoadWaypoints_files].
        destruct (LoadWaypoints_file_output_set counter file s Hs)
          as (c1 & s1 & H1 & E1).
        rewrite (bind_eq _ _ _ _ _ H1).
        destruct (IH c1 s1) as (c' & s' & H' & E'); [congruence|].
        exists c', s'. split; [exact H' | congruence]. }
    unfold LoadWaypoints. rewrite (bind_eq get _ st st st eq_refl).
    destruct (is_empty (waypointFiles st)); [now exists st|].
    rewrite (bind_eq (modify (set_conversionDone false)) _ st _ tt eq_refl).
    destruct (Hloop (waypointFiles st) 0 (set_conversionDone false st) Hout)
      as (c' & s' & H' & E').
    rewrite (bind_eq _ _ _ _ _ H').
    rewrite (bind_eq (modify (set_waypointFiles [])) _ s' _ tt eq_refl).
    rewrite (bind_eq get _ _ _ _ eq_refl).
    destruct (0 <? c'); eexists; (split; [reflexivity | exact E']).
Qed.

Lemma LoadAirspaces_file_output (type : OutputType) (n : nat)
    (inputFile : str) (st st' : State) :
  LoadAirspaces_file type n inputFile st = Some (tt, st') ->
  outputFile st' = outputFile st \/
  (outputFile st = []
   /\ outputFile st' = path.replace_extension inputFile (type_extension type)
   /\ type <> SeeYou_Format /\ type <> Unknown_Format).
Proof.
  unfold LoadAirspaces_file. cbv zeta. intros H.
  apply bind_Some in H as (known & st1 & Hread & H).
  assert (Hkeep : outputFile st1 = outputFile st).
  { match type of Hread with
    | ?m _ = _ => assert (Hk : preserves outputFile m) by keeps_output
    end.
    exact (Hk _ _ _ Hread). }
  destruct known; [|injection H as <-; now left].
  rewrite (bind_eq get _ st1 st1 st1 eq_refl) in H.
  destruct (_ && _) eqn:Hcond; [|injection H as <-; now left].
  apply andb_true_iff in Hcond as [_ Hempty].
  assert (Hst : outputFile st = [])
    by (rewrite <- Hkeep; now destruct (outputFile st1)).
  right. split; [exact Hst|].
  destruct type; try discriminate H; injection H as <-;
    repeat split; discriminate.
Qed.

Lemma LoadWaypoints_file_output (counter counter' : nat) (inputFile : str)
    (st st' : State) :
  LoadWaypoints_file counter inputFile st = Some (counter', st') ->
  outputFile st' = outputFile st \/
  (outputFile st = []
   /\ outputFile st' = path.replace_extension inputFile ".kmz").
Proof.
  unfold LoadWaypoints_file. cbv zeta. intros H.
  apply bind_Some in H as (read & st1 & Hread & H).
  assert (Hkeep : outputFile st1 = outputFile st).
  { match type of Hread with
    | ?m _ = _ => assert (Hk : preserves outputFile m) by keeps_output
    end.
    exact (Hk _ _ _ Hread). }
  destruct read as [readOk|]; [|injection H as _ <-; now left].
  rewrite (bind_eq get _ st1 st1 st1 eq_refl) in H.
  destruct (_ && _) eqn:Hcond; [|injection H as _ <-; now left].
  apply andb_true_iff in Hcond as [_ Hempty].
  right. split; [rewrite <- Hkeep; now destruct (outputFile st1)|].
  injection H as _ <-. reflexivity.
Qed.

(** When no output path is set, a load that sets one derives it from one
    of its pending files by replacing the extension: the extension of the
    suggested type for airspaces, [.kmz] for waypoints.  The path then
    resolves to that type and a [Convert] called next finds its
    assertions satisfied. *)
Theorem Load_infers_output_path (st : State) :
  outputFile st = [] ->
  (forall type st',
     LoadAirspaces type st = Some (tt, st') -> outputFile st' <> [] ->
     (exists inputFile,
        In inputFile (airspaceFiles st) /\
        outputFile st'
        = path.replace_extension inputFile (type_extension type)) /\
     GetOutputType st' = type /\ Convert st' <> None) /\
  (forall st',
     LoadWaypoints st = Some (tt, st') -> outputFile st' <> [] ->
     (exists inputFile,
        In inputFile (waypointFiles st) /\
        outputFile st' = path.replace_extension inputFile ".kmz") /\
     GetOutputType st' = KMZ_Format /\ Convert st' <> None).
Proof.
  intros Hnone.
  assert (Hconv : forall s type,
             outputFile s <> [] -> GetOutputType s = type ->
             type <> Unknown_Format -> Convert s <> None).
  { intros s type Hs Hty Hk Habort.
    destruct (Convert_defined s Hs) as (r & s' & H); congruence. }
  split.
  - intros type st' H Hset.
    assert (Hloop : forall files s s',
               for_each files
                 (LoadAirspaces_file type (length (airspaces st))) s
               = Some (tt, s') ->
               outputFile s' = outputFile s \/
               (outputFile s = [] /\
                (exists f, In f files /\
                   outputFile s'
                   = path.replace_extension f (type_extension type)) /\
                type <> SeeYou_Format /\ type <> Unknown_Format)).
    { induction files as [|file files IH]; intros s s' Hrun.
      - injection Hrun as <-. now left.
      - cbn [for_each] in Hrun.
        apply bind_Some in Hrun as ([] & s1 & H1 & Hrest).
        apply LoadAirspaces_file_output in H1.
        apply IH in Hrest.
        destruct H1 as [E1 | (E0 & E1 & Hty)].
        + destruct Hrest as [E | (E0 & (f & Hin & E) & Hty)].
          * left. congruence.
          * right. split; [congruence|]. split; [|exact Hty].
            exists f. split; [now right | exact E].
        + destruct Hrest as [E | (E0' & _)].
          * right. split; [exact E0|]. split; [|exact Hty].
            exists file. split; [now left | congruence].
          * exfalso. rewrite E1 in E0'. revert E0'.
            apply replace_extension_nonempty.
            destruct type; try discriminate; now destruct Hty. }
    unfold LoadAirspaces in H. rewrite (bind_eq get _ st st st eq_refl) in H.
    destruct (is_empty (airspaceFiles st));
      [injection H as <-; congruence|].
    apply bind_Some in H as (u & s1 & H1 & H). injection H1 as _ <-.
    apply bind_Some in H as (u1 & s2 & Hfiles & H).
    destruct u1. apply Hloop in Hfiles.
    assert (Hlast : outputFile st' = outputFile s2).
    { match type of H with
      | ?m _ = _ => assert (Hk : preserves outputFile m) by keeps_output
      end.
      exact (Hk _ _ _ H). }
    destruct Hfiles as [E | (_ & (f & Hin & E) & Hty1 & Hty2)].
    + exfalso. apply Hset. rewrite Hlast, E. exact Hnone.
    + assert (Hget : GetOutputType st' = type).
      { unfold GetOutputType. rewrite Hlast, E.
        now apply DetermineType_replace_extension. }
      split; [exists f; split; [exact Hin | congruence]|].
      split; [exact Hget|]. now apply (Hconv st' type).
  - intros st' H Hset.
    assert (Hloop : forall files counter counter' s s',
               LoadWaypoints_files files counter s = Some (counter', s') ->
               outputFile s' = outputFile s \/
               (outputFile s = [] /\
                exists f, In f files /\
                  outputFile s' = path.replace_extension f ".kmz")).
    { induction files as [|file files IH]; intros c c' s s' Hrun.
      - injection Hrun as _ <-. now left.
      - cbn [LoadWaypoints_files] in Hrun.
        apply bind_Some in Hrun as (c1 & s1 & H1 & Hrest).
        apply LoadWaypoints_file_output in H1.
        apply IH in Hrest.
        destruct H1 as [E1 | (E0 & E1)].
        + destruct Hrest as [E | (E0 & f & Hin & E)].
          * left. congruence.
          * right. split; [congruence|].
            exists f. split; [now right | exact E].
        + destruct Hrest as [E | (E0' & _)].
          * right. split; [exact E0|].
            exists file. split; [now left | congruence].
          * exfalso. rewrite E1 in E0'. revert E0'.
            now apply replace_extension_nonempty. }
    unfold LoadWaypoints in H. rewrite (bind_eq get _ st st st eq_refl) in H.
    destruct (is_empty (waypointFiles st));
      [injection H as <-; congruence|].
    apply bind_Some in H as (u & s1 & H1 & H). injection H1 as _ <-.
    apply bind_Some in H as (c & s2 & Hfiles & H).
    apply Hloop in Hfiles.
    assert (Hlast : outputFile st' = outputFile s2).
    { match type of H with
      | ?m _ = _ => assert (Hk : preserves outputFile m) by keeps_output
      end.
      exact (Hk _ _ _ H). }
    destruct Hfiles as [E | (_ & f & Hin & E)].
    + exfalso. apply Hset. rewrite Hlast, E. exact Hnone.
    + assert (Hget : GetOutputType st' = KMZ_Format).
      { unfold GetOutputType. rewrite Hlast, E.
        now apply (DetermineType_replace_extension KMZ_Format). }
      split; [exists f; split; [exact Hin | congruence]|].
      split; [exact Hget|]. apply (Hconv st' KMZ_Format); auto.
      discriminate.
Qed.

(** *** Load: files without a reader *)

Lemma LoadAirspaces_file_skipped (type : OutputType) (n : nat)
    (inputFile : str) (st : State) :
  airspace_reader_for inputFile = false ->
  exists w, LoadAirspaces_file type n inputFile st
            = Some (tt, set_world w st).
Proof.
  unfold airspace_reader_for. cbv zeta. intros H.
  repeat (apply orb_false_iff in H as [H ?]).
  unfold LoadAirspaces_file. cbv zeta.
  repeat match goal with E : iequals _ _ = false |- _ =>
           rewrite E; clear E end.
  eexists. reflexivity.
Qed.

Lemma LoadWaypoints_file_skipped (counter : nat) (inputFile : str)
    (st : State) :
  waypoint_reader_for inputFile = false ->
  exists w, LoadWaypoints_file counter inputFile st
            = Some (counter, set_world w st).
Proof.
  unfold waypoint_reader_for. cbv zeta. intros H.
  apply orb_false_iff in H as [H1 H2].
  unfold LoadWaypoints_file. cbv zeta. rewrite H1, H2.
  eexists. reflexivity.
Qed.

(** Pending files whose extension has no reader are skipped: when no
    pending file has a reader, a load returns, whatever type is
    suggested, and neither collection nor the output path has changed. *)
Theorem Load_skips_unknown_extensions (st : State) :
  Forall (fun f => airspace_reader_for f = false) (airspaceFiles st) ->
  Forall (fun f => waypoint_reader_for f = false) (waypointFiles st) ->
  (forall type, exists st',
     LoadAirspaces type st = Some (tt, st') /\
     airspaces st' = airspaces st /\ waypoints st' = waypoints st /\
     outputFile st' = outputFile st) /\
  (exists st',
     LoadWaypoints st = Some (tt, st') /\
     airspaces st' = airspaces st /\ waypoints st' = waypoints st /\
     outputFile st' = outputFile st).
Proof.
  intros Hasp Hwpt. split.
  - intros type.
    assert (Hloop : forall files s,
               Forall (fun f => airspace_reader_for f = false) files ->
               exists s',
                 for_each files
                   (LoadAirspaces_file type (length (airspaces st))) s
                 = Some (tt, s')
                 /\ airspaces s' = airspaces s /\ waypoints s' = waypoints s
                 /\ outputFile s' = outputFile s).
    { induction files as [|file files IH]; intros s Hfiles.
      - now exists s.
      - inversion Hfiles as [|? ? Hfile Hrest]; subst. cbn [for_each].
        destruct (LoadAirspaces_file_skipped
                    type (length (airspaces st)) file s Hfile) as (w & H1).
        rewrite (bind_eq _ _ _ _ _ H1).
        destruct (IH (set_world w s) Hrest) as (s' & H' & Ea & Ep & Eo).
        exists s'. repeat split; assumption. }
    unfold LoadAirspaces. rewrite (bind_eq get _ st st st eq_refl).
    destruct (is_empty (airspaceFiles st)); [now exists st|].
    rewrite (bind_eq (modify (set_conversionDone false)) _ st _ tt eq_refl).
    destruct (Hloop (airspaceFiles st) (set_conversionDone false st) Hasp)
      as (s' & H' & Ea & Ep & Eo).
    rewrite (bind_eq _ _ _ _ _ H').
    eexists. split; [reflexivity|]. repeat split; assumption.
  - assert (Hloop : forall files counter s,
               Forall (fun f => waypoint_reader_for f = false) files ->
               exists s',
                 LoadWaypoints_files files counter s = Some (counter, s')
                 /\ airspaces s' = airspaces s /\ waypoints s' = waypoints s
                 /\ outputFile s' = outputFile s).
    { induction files as [|file files IH]; intros counter s Hfiles.
      - now exists s.
      - inversion Hfiles as [|? ? Hfile Hrest]; subst.
        cbn [LoadWaypoints_files].
        destruct (LoadWaypoints_file_skipped counter file s Hfile)
          as (w & H1).
        rewrite (bind_eq _ _ _ _ _ H1).
        destruct (IH counter (set_world w s) Hrest)
          as (s' & H' & Ea & Ep & Eo).
        exists s'. repeat split; assumption. }
    unfold LoadWaypoints. rewrite (bind_eq get _ st st st eq_refl).
    destruct (is_empty (waypointFiles st)); [now exists st|].
    rewrite (bind_eq (modify (set_conversionDone false)) _ st _ tt eq_refl).
    destruct (Hloop (waypointFiles st) 0 (set_conversionDone false st) Hwpt)
      as (s' & H' & Ea & Ep & Eo).
    rewrite (bind_eq _ _ _ _ _ H').
    eexists. split; [reflexivity|]. repeat split; assumption.
Qed.

(** *** Geographic filter *)

Lemma filter_idempotent {A : Type} (p : A -> bool) (l : list A) :
  filter p (filter p l) = filter p l.
Proof.
  induction l as [|x l IH]; [reflexivity|]. cbn.
  destruct (p x) eqn:E; cbn; [rewrite E|]; now rewrite ?IH.
Qed.

Lemma filter_partition_length {A : Type} (p : A -> bool) (l : list A) :
  length l = length (filter p l) + length (filter (fun x => negb (p x)) l).
Proof.
  induction l as [|x l IH]; [reflexivity|]. cbn.
  destruct (p x); cbn; lia.
Qed.

(** What a filtering that goes through leaves in the object. *)
Lemma FilterOnLatLonLimits_runs (topLat bottomLat leftLon rightLon : float)
    (st : State) :
  is_whole_globe topLat bottomLat leftLon rightLon = false ->
  IsValid (Limits_new topLat bottomLat leftLon rightLon) = true ->
  let limits := Limits_new topLat bottomLat leftLon rightLon in
  exists w,
    FilterOnLatLonLimits topLat bottomLat leftLon rightLon st
    = Some (true,
            set_world w
              (set_waypoints
                 (filter (fun it => IsPositionWithinLimits limits
                                      (GetPosition (snd it)))
                         (waypoints st))
                 (set_airspaces
                    (filter (fun it => IsWithinLimits (snd it) limits)
                            (airspaces st)) st))).
Proof.
  intros Hglobe Hvalid limits. unfold FilterOnLatLonLimits.
  rewrite Hglobe, Hvalid. cbn [negb]. fold limits.
  unfold bind, get, modify, log_message, ret.
  destruct st as [asp wpt f1 f2 f3 out done o1 o2 o3 w].
  destruct asp as [|a asp]; destruct wpt as [|p wpt]; cbn;
    eexists; reflexivity.
Qed.

(** A filtering on a valid box other than the whole globe returns true.
    Afterwards the airspaces are exactly those of before that are within
    the limits, in the same order, and likewise the waypoints; what was
    there is what is kept plus what is removed; the output path, the
    completion flag, the pending lists and the options are unchanged. *)
Theorem FilterOnLatLonLimits_keeps_within
    (topLat bottomLat leftLon rightLon : float) (st : State) :
  is_whole_globe topLat bottomLat leftLon rightLon = false ->
  IsValid (Limits_new topLat bottomLat leftLon rightLon) = true ->
  let limits := Limits_new topLat bottomLat leftLon rightLon in
  let inside_a := fun it : Z * Airspace => IsWithinLimits (snd it) limits in
  let inside_w := fun it : Z * Waypoint =>
                    IsPositionWithinLimits limits (GetPosition (snd it)) in
  exists st',
    FilterOnLatLonLimits topLat bottomLat leftLon rightLon st
    = Some (true, st') /\
    airspaces st' = filter inside_a (airspaces st) /\
    waypoints st' = filter inside_w (waypoints st) /\
    (forall it, In it (airspaces st') <->
                In it (airspaces st) /\ inside_a it = true) /\
    (forall it, In it (waypoints st') <->
                In it (waypoints st) /\ inside_w it = true) /\
    length (airspaces st)
    = length (airspaces st')
      + length (filter (fun it => negb (inside_a it)) (airspaces st)) /\
    length (waypoints st)
    = length (waypoints st')
      + length (filter (fun it => negb (inside_w it)) (waypoints st)) /\
    outputFile st' = outputFile st /\
    conversionDone st' = conversionDone st /\
    airspaceFiles st' = airspaceFiles st /\
    waypointFiles st' = waypointFiles st.
Proof.
  intros Hglobe Hvalid limits inside_a inside_w.
  destruct (FilterOnLatLonLimits_runs _ _ _ _ st Hglobe Hvalid) as (w & H).
  eexists. split; [exact H|]. cbn [airspaces waypoints set_world
    set_waypoints set_airspaces outputFile conversionDone airspaceFiles
    waypointFiles].
  split; [reflexivity|]. split; [reflexivity|].
  split; [intros it; apply filter_In|].
  split; [intros it; apply filter_In|].
  split; [apply filter_partition_length|].
  split; [apply filter_partition_length|].
  repeat split.
Qed.

(** Filtering a second time on the same box removes nothing more. *)
Theorem FilterOnLatLonLimits_idempotent
    (topLat bottomLat leftLon rightLon : float) (st st1 st2 : State)
    (r1 r2 : bool) :
  FilterOnLatLonLimits topLat bottomLat leftLon rightLon st = Some (r1, st1) ->
  FilterOnLatLonLimits topLat bottomLat leftLon rightLon st1 = Some (r2, st2) ->
  r2 = r1 /\ airspaces st2 = airspaces st1 /\ waypoints st2 = waypoints st1.
Proof.
  intros H1 H2.
  destruct (is_whole_globe topLat bottomLat leftLon rightLon) eqn:Hglobe.
  { unfold FilterOnLatLonLimits in H1, H2. rewrite Hglobe in H1, H2.
    injection H1 as <- <-. injection H2 as <- <-. repeat split. }
  destruct (IsValid (Limits_new topLat bottomLat leftLon rightLon)) eqn:Hvalid.
  - destruct (FilterOnLatLonLimits_runs _ _ _ _ st Hglobe Hvalid) as (w1 & E1).
    destruct (FilterOnLatLonLimits_runs _ _ _ _ st1 Hglobe Hvalid)
      as (w2 & E2).
    rewrite E1 in H1. rewrite E2 in H2.
    injection H1 as <- <-. injection H2 as <- <-.
    cbn [airspaces waypoints set_world set_waypoints set_airspaces].
    now rewrite !filter_idempotent.
  - unfold FilterOnLatLonLimits in H1, H2.
    rewrite Hglobe, Hvalid in H1, H2.
    injection H1 as <- <-. injection H2 as <- <-. repeat split.
Qed.

(** *** Unloading *)

(** The two unloads can be called in either order: both orders end in the
    same state, with nothing loaded and no output path. *)
Theorem Unload_both_commute (st : State) :
  (UnloadAirspaces ;; UnloadWaypoints) st
  = (UnloadWaypoints ;; UnloadAirspaces) st /\
  exists st',
    (UnloadAirspaces ;; UnloadWaypoints) st = Some (tt, st') /\
    unloaded st' /\
    airspaceFiles st' = airspaceFiles st /\
    waypointFiles st' = waypointFiles st /\
    world st' = world st.
Proof.
  unfold UnloadAirspaces, UnloadWaypoints, bind, modify, get, ret. cbn.
  destruct (airspaces st); (split; [reflexivity|]);
    eexists; (split; [reflexivity|]); repeat split.
Qed.

Lemma set_world_same (s : State) : set_world (world s) s = s.
Proof. now destruct s. Qed.

(** *** Terrain raster maps *)

Lemma AddTerrainMaps_world (files : list str) (counter : nat) (s : State) :
  exists counter' w,
    AddTerrainMaps files counter s = Some (counter', set_world w s).
Proof.
  revert counter s. induction files as [|f files IH]; intros counter s.
  - exists counter, (world s). cbn. now rewrite set_world_same.
  - cbn [AddTerrainMaps]. unfold bind at 1, AddTerrainMap_count.
    destruct (KML_AddTerrainMap f (world s)) as [ok w1].
    destruct (IH (if ok then S counter else counter) (set_world w1 s))
      as (c' & w & H).
    exists c', w. exact H.
Qed.

(** Loading and unloading terrain raster maps never touches the loaded
    airspaces and waypoints, the output path or the other pending lists;
    the load always returns and consumes its own pending list. *)
Theorem raster_maps_leave_data (st : State) :
  (exists st',
     LoadTerrainRasterMaps st = Some (tt, st') /\
     terrainRasterMapFiles st' = [] /\
     airspaces st' = airspaces st /\ waypoints st' = waypoints st /\
     outputFile st' = outputFile st /\
     airspaceFiles st' = airspaceFiles st /\
     waypointFiles st' = waypointFiles st) /\
  (exists st',
     UnloadRasterMaps st = Some (tt, st') /\
     conversionDone st' = false /\
     terrainRasterMapFiles st' = terrainRasterMapFiles st /\
     airspaces st' = airspaces st /\ waypoints st' = waypoints st /\
     outputFile st' = outputFile st /\
     airspaceFiles st' = airspaceFiles st /\
     waypointFiles st' = waypointFiles st).
Proof.
  split.
  - unfold LoadTerrainRasterMaps. rewrite (bind_eq get _ st st st eq_refl).
    destruct (terrainRasterMapFiles st) as [|f files] eqn:E; cbn [is_empty].
    + exists st. repeat split. exact E.
    + rewrite (bind_eq (modify (set_conversionDone false)) _ st _ tt eq_refl).
      destruct (AddTerrainMaps_world (f :: files) 0
                  (set_conversionDone false st)) as (c & w & H).
      rewrite (bind_eq _ _ _ _ _ H).
      rewrite (bind_eq (modify (set_terrainRasterMapFiles [])) _ _ _ tt
                 eq_refl).
      destruct (0 <? c); eexists; (split; [reflexivity|]); repeat split.
  - eexists. split; [reflexivity|]. repeat split.
Qed.

(** *** The directory pipeline *)

Lemma build_index_world (entries : list DirEntry) (index : FilesIndex)
    (s : State) :
  exists w,
    build_index entries index s
    = Some (fold_left add_entry entries index, set_world w s).
Proof.
  revert index s. induction entries as [|e entries IH]; intros index s.
  - exists (world s). cbn. now rewrite set_world_same.
  - cbn [build_index fold_left].
    assert (H : exists w, index_entry index e s
                          = Some (add_entry index e, set_world w s)).
    { unfold index_entry, add_entry, entry_record.
      destruct (_ && _ && _);
        [|exists (world s); now rewrite set_world_same].
      destruct (_ && _); [|eexists; reflexivity].
      destruct (content_of_name _);
        [exists (world s); now rewrite set_world_same
        |eexists; reflexivity]. }
    destruct H as (w1 & H1). rewrite (bind_eq _ _ _ _ _ H1).
    destruct (IH (add_entry index e) (set_world w1 s)) as (w & H).
    exists w. exact H.
Qed.

Lemma convert_country_unloads (openAIPpath : str) (record : str * Contents) :
  ensures (convert_country openAIPpath record) unloaded.
Proof.
  destruct record as [countryCode [[[asp hot] nav] wpt]].
  unfold convert_country. cbn [fst snd].
  do 6 (apply ensures_bind; intros ?).
  intros st x st' H.
  apply bind_Some in H as (u & st1 & H1 & H2).
  injection H1 as _ <-.
  unfold UnloadWaypoints, bind, modify, get, ret in H2. cbn in H2.
  injection H2 as _ <-. repeat split.
Qed.

(** Once the path has passed the directory test, [ConvertOpenAIPdir]
    leaves nothing loaded and no output path behind, whether it then
    succeeds or finds no file to convert: what was loaded before the call
    is gone.  When the path is empty or not a directory the object is
    left as it was. *)
Theorem ConvertOpenAIPdir_leaves_unloaded (openAIPdir : str) (st : State) :
  exists result st',
    ConvertOpenAIPdir openAIPdir st = Some (result, st') /\
    (openAIPdir <> [] -> is_directory (world st) openAIPdir = true ->
     unloaded st') /\
    (openAIPdir = [] \/ is_directory (world st) openAIPdir = false ->
     result = false /\ same_object st st').
Proof.
  unfold ConvertOpenAIPdir.
  destruct openAIPdir as [|c dir] eqn:Edir.
  { exists false, st. split; [reflexivity|]. split; [congruence|].
    intros _. split; [reflexivity|]. unfold same_object.
    now rewrite set_world_same. }
  rewrite <- Edir. cbn [is_empty].
  replace (is_empty openAIPdir) with false by now rewrite Edir.
  rewrite (bind_eq get _ st st st eq_refl).
  destruct (is_directory (world st) openAIPdir) eqn:Hdir; cbn [negb].
  2:{ eexists false, _. split; [reflexivity|]. split; [congruence|].
      intros _. split; reflexivity. }
  destruct (UnloadWaypoints_total (set_outputFile [] (set_airspaces []
              (set_conversionDone false st)))) as ([] & st1 & Hun).
  assert (Hst1 : unloaded st1).
  { unfold UnloadWaypoints, bind, modify, get, ret in Hun. cbn in Hun.
    injection Hun as <-. repeat split. }
  rewrite (bind_eq UnloadAirspaces _ st _ tt eq_refl).
  rewrite (bind_eq UnloadWaypoints _ _ _ _ Hun).
  rewrite (bind_eq get _ st1 st1 st1 eq_refl).
  destruct (build_index_world (directory_entries (world st1) openAIPdir)
              [] st1) as (w & Hidx).
  rewrite (bind_eq _ _ _ _ _ Hidx).
  destruct (fold_left add_entry _ []) as [|r index]; cbn [is_empty].
  - eexists false, _. split; [reflexivity|].
    split; [|intros [H | H]; congruence].
    intros _ _. exact Hst1.
  - destruct (total_for_each (r :: index) (convert_country openAIPdir)
                (total_convert_country openAIPdir) (set_world w st1))
      as ([] & st' & Hrun).
    rewrite (bind_eq _ _ _ _ _ Hrun).
    exists true, st'. split; [reflexivity|].
    split; [|intros [H | H]; congruence].
    intros _ _.
    exact (ensures_for_each_last (r :: index) (convert_country openAIPdir)
             _ ltac:(discriminate) (convert_country_unloads openAIPdir)
             _ _ _ Hrun).
Qed.

End EngineFrames.

(** ** The theorems at work

    The general statements applied in the small world of [Demo]. *)

Section Examples.

#[local] Existing Instance Demo.collaborators.

(** A box with the bottom above the top, on a state with one airspace and
    one waypoint loaded. *)
Lemma FilterOnLatLonLimits_no_filtering_witness :
  let st := set_waypoints [(5%Z, Demo.LIML)]
              (set_airspaces [(3%Z, Demo.CTR)]
                 (Demo.start Demo.empty_world)) in
  IsValid (Limits_new 10 20 0 5) = false /\
  FilterOnLatLonLimits 10 20 0 5 st = Some (false, st).
Proof.
  intros st.
  assert (Hinv : IsValid (Limits_new 10 20 0 5) = false) by reflexivity.
  split; [exact Hinv|].
  destruct (FilterOnLatLonLimits_no_filtering st)
    as (_ & _ & H).
  destruct (H 10%float 20%float 0%float 5%float eq_refl Hinv)
    as (st' & Hrun & _ & _ & ->).
  exact Hrun.
Defined.

(** C1 refuted as stated: after a successful [Convert] the completion
    flag is set; a [LoadAirspaces] or a [LoadWaypoints] with nothing
    pending returns before the reset and the flag is still set. *)
Lemma Load_nothing_pending_counterexample :
  exists st st1 st2,
    run_ops [OpAddAirspaceFile "italy.txt"; OpLoadAirspaces KMZ_Format;
             OpConvert]
            (Demo.start Demo.one_openair_file) = Some (tt, st) /\
    conversionDone st = true /\
    airspaceFiles st = [] /\ waypointFiles st = [] /\
    LoadAirspaces KMZ_Format st = Some (tt, st1) /\
    conversionDone st1 = true /\
    LoadWaypoints st = Some (tt, st2) /\
    conversionDone st2 = true.
Proof.
  eexists _, _, _.
  split; [vm_compute; reflexivity|].
  repeat split.
Qed.

(** The same object with a file pending: the load resets the flag. *)
Lemma completion_flag_witness :
  exists st st',
    run_ops [OpAddAirspaceFile "italy.txt"; OpLoadAirspaces KMZ_Format;
             OpConvert; OpAddAirspaceFile "italy.txt"]
            (Demo.start Demo.one_openair_file) = Some (tt, st) /\
    conversionDone st = true /\
    airspaceFiles st <> [] /\
    LoadAirspaces KMZ_Format st = Some (tt, st') /\
    conversionDone st' = false.
Proof.
  assert (Hrun : exists st,
             run_ops [OpAddAirspaceFile "italy.txt";
                      OpLoadAirspaces KMZ_Format; OpConvert;
                      OpAddAirspaceFile "italy.txt"]
                     (Demo.start Demo.one_openair_file)
             = Some (tt, st)
             /\ conversionDone st = true
             /\ airspaceFiles st = ["italy.txt" : str])
    by (vm_compute; eexists; repeat split).
  destruct Hrun as (st & Hrun & Hdone & Hfiles).
  assert (Hpending : airspaceFiles st <> [])
    by (rewrite Hfiles; discriminate).
  destruct (total_LoadAirspaces_KMZ st) as ([] & st' & Hload).
  exists st, st'. repeat split; auto.
  destruct (completion_flag st) as (_ & _ & Hreset & _).
  exact (Hreset KMZ_Format st' Hpending Hload).
Defined.

(** C2, at the failing input: a directory that holds the airfields of one
    country and no navaids.  The airfields are loaded for the tabular
    file, never unloaded, and loaded again before the combined KMZ file:
    the tabular file gets the airfield once, the KMZ file gets it twice.
    Where navaids are present too ([Demo.two_countries]) the airfields are
    unloaded in between and the KMZ file gets each waypoint once. *)
Theorem ConvertOpenAIPdir_airfields_twice :
  (exists st' : @State Demo.collaborators,
     ConvertOpenAIPdir "openaip" (Demo.start Demo.airfields_only)
     = Some (true, st') /\
     Demo.lookup "openaip/it_wpt.cup" (Demo.written (world st'))
     = Some ([], [(5%Z, Demo.LIML)]) /\
     Demo.lookup "openaip/it.kmz" (Demo.written (world st'))
     = Some ([], [(5%Z, Demo.LIML); (5%Z, Demo.LIML)])) /\
  (exists st' : @State Demo.collaborators,
     ConvertOpenAIPdir "openaip" (Demo.start Demo.two_countries)
     = Some (true, st') /\
     Demo.lookup "openaip/it.kmz" (Demo.written (world st'))
     = Some ([(3%Z, Demo.CTR)], [(2%Z, Demo.SRN); (5%Z, Demo.LIML)])).
Proof.
  split; eexists; (split; [vm_compute; reflexivity|]); repeat split.
Qed.

(** The pipeline on a directory where one tabular file cannot be written:
    the conversion of that file fails, the other files are written and
    the result is true. *)
Lemma ConvertOpenAIPdir_result_witness :
  exists st' : @State Demo.collaborators,
    ConvertOpenAIPdir "openaip" (Demo.start Demo.two_countries)
    = Some (true, st') /\
    Demo.lookup "openaip/it_wpt.cup" (Demo.written (world st')) = None /\
    airspaces st' = [] /\ waypoints st' = [].
Proof.
  destruct (ConvertOpenAIPdir_result
              "openaip" (Demo.start Demo.two_countries))
    as (result & st' & Hrun & Hfalse & _ & Htrue).
  assert (Hres : result = true).
  { destruct result; [reflexivity|].
    destruct Hfalse as [Hfalse _].
    destruct (Hfalse eq_refl) as [H | [H | H]]; vm_compute in H; discriminate. }
  subst result. exists st'. split; [exact Hrun|].
  destruct (Htrue eq_refl) as (st1 & st2 & _ & _ & _ & _ & Ha & Hp).
  split; [|split; assumption].
  vm_compute in Hrun. injection Hrun as <-. reflexivity.
Defined.

(** A single digit. *)
Lemma ParseAltitude_single_character_witness :
  length ("5" : str) = 1 /\
  @ParseAltitude Demo.collaborators "5" true Demo.CTR = (false, Demo.CTR).
Proof.
  split; [reflexivity|].
  apply (@ParseAltitude_single_character Demo.collaborators "5" true Demo.CTR).
  reflexivity.
Defined.

End Examples.

(** ** More of the theorems at work *)

Section MoreExamples.

#[local] Existing Instance Demo.collaborators.



Lemma Load_keeps_output_path_witness :
  exists st' : @State Demo.collaborators,
    LoadAirspaces SeeYou_Format Scenes.queued_with_output = Some (tt, st') /\
    outputFile st' = "out/alps.mp" /\
    airspaces st' = [(3%Z, Demo.CTR)].
Proof.
  destruct (Load_keeps_output_path Scenes.queued_with_output)
    as [Hasp _]; [discriminate|].
  destruct (Hasp SeeYou_Format) as (st' & Hload & Hout).
  exists st'. split; [exact Hload|]. split; [exact Hout|].
  vm_compute in Hload. injection Hload as <-. reflexivity.
Defined.

Lemma Load_infers_output_path_witness :
  exists st' : @State Demo.collaborators,
    LoadAirspaces Garmin_Format Scenes.queued = Some (tt, st') /\
    outputFile st' = "italy.img" /\
    GetOutputType st' = Garmin_Format /\
    Convert st' <> None.
Proof.
  destruct (LoadAirspaces Garmin_Format Scenes.queued)
    as [[[] st']|] eqn:Hload; [|vm_compute in Hload; discriminate].
  assert (Hout : outputFile st' = "italy.img")
    by (vm_compute in Hload; injection Hload as <-; reflexivity).
  exists st'. split; [reflexivity|]. split; [exact Hout|].
  destruct (Load_infers_output_path Scenes.queued eq_refl) as [Hasp _].
  destruct (Hasp Garmin_Format st' Hload) as (_ & Hty & Hconv).
  - rewrite Hout. discriminate.
  - split; assumption.
Defined.

Lemma Load_skips_unknown_extensions_witness :
  exists st1 st2 : @State Demo.collaborators,
    LoadAirspaces Unknown_Format Scenes.queued_unreadable = Some (tt, st1) /\
    airspaces st1 = [] /\ outputFile st1 = [] /\
    LoadWaypoints Scenes.queued_unreadable = Some (tt, st2) /\
    waypoints st2 = [].
Proof.
  destruct (Load_skips_unknown_extensions Scenes.queued_unreadable)
    as [Hasp Hwpt].
  - repeat (apply Forall_cons; [reflexivity|]). apply Forall_nil.
  - repeat (apply Forall_cons; [reflexivity|]). apply Forall_nil.
  - destruct (Hasp Unknown_Format) as (st1 & H1 & Ha & _ & Ho).
    destruct Hwpt as (st2 & H2 & _ & Hw & _).
    exists st1, st2. repeat split; assumption.
Defined.

Lemma FilterOnLatLonLimits_keeps_within_witness :
  exists st' : @State Demo.collaborators,
    FilterOnLatLonLimits 46 45.625 8 10 Scenes.loaded = Some (true, st') /\
    airspaces st' = [] /\
    waypoints st' = [(2%Z, Demo.SRN)] /\
    outputFile st' = "italy.kmz".
Proof.
  destruct (FilterOnLatLonLimits_keeps_within 46 45.625 8 10 Scenes.loaded)
    as (st' & Hrun & Ha & Hw & _ & _ & _ & _ & Ho & _);
    [reflexivity | reflexivity |].
  exists st'. split; [exact Hrun|].
  rewrite Ha, Hw, Ho. repeat split.
Defined.

Lemma FilterOnLatLonLimits_idempotent_witness :
  exists st1 st2 : @State Demo.collaborators,
    FilterOnLatLonLimits 46 45.625 8 10 Scenes.loaded = Some (true, st1) /\
    FilterOnLatLonLimits 46 45.625 8 10 st1 = Some (true, st2) /\
    waypoints st2 = waypoints st1.
Proof.
  destruct (FilterOnLatLonLimits 46 45.625 8 10 Scenes.loaded)
    as [[r1 st1]|] eqn:H1; [|vm_compute in H1; discriminate].
  destruct (FilterOnLatLonLimits 46 45.625 8 10 st1)
    as [[r2 st2]|] eqn:H2.
  - destruct (FilterOnLatLonLimits_idempotent _ _ _ _ _ _ _ _ _ H1 H2)
      as (Hr & _ & Hw).
    assert (Hr1 : r1 = true)
      by (vm_compute in H1; injection H1 as <- _; reflexivity).
    subst. exists st1, st2.
    split; [reflexivity | split; [exact H2 | exact Hw]].
  - exfalso. vm_compute in H1. injection H1 as _ <-.
    vm_compute in H2. discriminate.
Defined.

End MoreExamples.
